(** * NetCalc command-line option handling

    A shallow embedding of [C/option_handler/src/option_handler.c] and
    [C/option_handler/include/option_handler.h].

    - C integers are [Z]; [size_t] lengths and argument indices are [nat].
    - [char *] values that the code compares with [NULL] are [option string].
    - Everything the code writes (through [print_error], [fprintf (stderr, ...)]
      and [printf]) is collected, in order, as a list of [event]s.
    - The process-wide state of [getopt] is passed explicitly. *)

From Stdlib Require Import List String Ascii ZArith Lia Bool PeanoNat.
Import ListNotations.

Local Open Scope string_scope.
Local Open Scope list_scope.

(** The line feed written as [\n] in the C string literals. *)
Definition LF : string := String "010"%char EmptyString.

(* ------------------------------------------------------------------------- *)
(** ** utilities.h *)

Module Utilities.

(** Modelled from the spec: utilities.h is not among the sources.  Its two
    result codes are an enumeration (the code only compares them for equality),
    and [print_error] is an event carrying the message it is given. *)
Inductive exit_status : Type :=
| E_SUCCESS
| E_FAILURE.

Inductive event : Type :=
| print_error (msg : string)
| fprintf_stderr (text : string)
| printf (text : string).

End Utilities.
Export Utilities.

(* ------------------------------------------------------------------------- *)
(** ** number_converter.h *)

Module NumberConverter.

Definition INT32_MIN : Z := -2147483648.
Definition INT32_MAX : Z := 2147483647.

(** The [number_t] out-parameter; only its signed view is read here. *)
Record number_t : Type := { signed_num : Z }.

Definition digit_value (c : ascii) : option Z :=
  let n := Z.of_nat (nat_of_ascii c) in
  if (48 <=? n)%Z && (n <=? 57)%Z then Some (n - 48)%Z else None.

Fixpoint digits_value (acc : Z) (s : string) : option Z :=
  match s with
  | EmptyString => Some acc
  | String c r =>
      match digit_value c with
      | Some d => digits_value (10 * acc + d)%Z r
      | None => None
      end
  end.

Definition unsigned_value (s : string) : option Z :=
  match s with
  | EmptyString => None
  | String _ _ => digits_value 0%Z s
  end.

(** The integer a decimal numeral denotes: an optional sign and at least one
    digit; [None] for every other text. *)
Definition decimal_value (s : string) : option Z :=
  match s with
  | String c r =>
      if Ascii.eqb c "-" then option_map Z.opp (unsigned_value r)
      else if Ascii.eqb c "+" then unsigned_value r
      else unsigned_value s
  | EmptyString => None
  end.

(** Modelled from the spec: [str_to_int32] of number_converter is not among
    the sources.  "Converts a textual argument to a bounded signed integer";
    "fails when text is empty, non-numeric, or exceeds 32-bit signed range".
    On failure the out-parameter keeps what the caller put there. *)
Definition str_to_int32 (str : string) (result : number_t)
  : exit_status * number_t :=
  match decimal_value str with
  | Some v =>
      if (INT32_MIN <=? v)%Z && (v <=? INT32_MAX)%Z
      then (E_SUCCESS, {| signed_num := v |})
      else (E_FAILURE, result)
  | None => (E_FAILURE, result)
  end.

End NumberConverter.
Export NumberConverter.

(* ------------------------------------------------------------------------- *)
(** ** string.h *)

(** [strnlen (s, maxlen)]: the length of [s], but at most [maxlen]. *)
Fixpoint strnlen (s : string) (maxlen : nat) {struct maxlen} : nat :=
  match maxlen, s with
  | S m, String _ r => S (strnlen r m)
  | _, _ => 0
  end.

(* ------------------------------------------------------------------------- *)
(** ** getopt (3)

    The C library's option scanner, as documented for glibc, for an option
    string without the leading [+], [-] or [:] flags (the program's is
    ["n:p:h"]).  Its process-wide variables and the argument vector they point
    into are one record:

    - [argv_done]: the elements before the cursor, [argv[0]] first;
    - [nonopts]: the non-options passed over in [PERMUTE] mode, which glibc
      moves behind the options;
    - [nextchar]: what is left of the element being scanned (a cluster of
      short options such as [-hn4]);
    - [argv_rest]: the elements the cursor has not yet looked at;
    - [optarg], [optopt]: the two result variables.

    [optind] is the number of elements before [argv_rest].  When [getopt]
    returns -1 it leaves [optind] on the first non-option, and
    [argv_done ++ argv_rest] is the vector as glibc has reordered it; that is
    the only moment at which the program reads [optind] and the vector.
    (glibc moves the non-options lazily and keeps [optind] on an element
    until its last character is read; neither can be seen from
    [process_options].) *)

Module Getopt.

Inductive ordering_t : Type :=
| REQUIRE_ORDER   (* POSIXLY_CORRECT, or a libc that does not permute *)
| PERMUTE.        (* the glibc default *)

Record getopt_data : Type := mk_getopt {
  ordering : ordering_t;
  argv_done : list string;
  nonopts : list string;
  nextchar : string;
  argv_rest : list string;
  optarg : option string;
  optopt : ascii
}.

(** The argument vector as the caller sees it, and [argc], [optind]. *)
Definition argv_vector (d : getopt_data) : list string :=
  argv_done d ++ nonopts d ++ argv_rest d.

Definition argc (d : getopt_data) : nat := List.length (argv_vector d).

Definition optind (d : getopt_data) : nat :=
  List.length (argv_done d) + List.length (nonopts d).

(** The state before the first call: [optind = 1], nothing scanned. *)
Definition getopt_init (o : ordering_t) (argv : list string) : getopt_data :=
  {| ordering := o;
     argv_done := firstn 1 argv;
     nonopts := [];
     nextchar := EmptyString;
     argv_rest := skipn 1 argv;
     optarg := None;
     optopt := "?"%char |}.

Inductive has_arg : Type :=
| no_argument
| required_argument
| optional_argument.

(** [strchr (optstring, c)] and the colons that follow the match. *)
Fixpoint optstring_lookup (c : ascii) (optstring : string) : option has_arg :=
  match optstring with
  | EmptyString => None
  | String o r =>
      if Ascii.eqb o c then
        match r with
        | String c1 (String c2 _) =>
            if Ascii.eqb c1 ":" then
              if Ascii.eqb c2 ":" then Some optional_argument
              else Some required_argument
            else Some no_argument
        | String c1 EmptyString =>
            if Ascii.eqb c1 ":" then Some required_argument
            else Some no_argument
        | EmptyString => Some no_argument
        end
      else optstring_lookup c r
  end.

(** [NONOPTION_P]: the element does not start with [-], or is [-] alone. *)
Definition nonoption (s : string) : bool :=
  match s with
  | String c (String _ _) => negb (Ascii.eqb c "-")
  | _ => true
  end.

Fixpoint skip_nonoptions (l : list string) : list string * list string :=
  match l with
  | a :: r =>
      if nonoption a
      then let (s, r') := skip_nonoptions r in (a :: s, r')
      else ([], l)
  | [] => ([], [])
  end.

Definition program_name (d : getopt_data) : string :=
  match argv_done d with
  | a :: _ => a
  | [] => EmptyString
  end.

Definition quoted (c : ascii) : string :=
  String "'" (String c (String "'" LF)).

(** One short option: [c] has just been read from the cluster and [r] is what
    follows it in the same element. *)
Definition short_option (optstring : string) (c : ascii) (r : string)
    (d : getopt_data) : option ascii * getopt_data * list event :=
  let invalid :=
    (Some "?"%char,
     {| ordering := ordering d; argv_done := argv_done d;
        nonopts := nonopts d; nextchar := r; argv_rest := argv_rest d;
        optarg := None; optopt := c |},
     [fprintf_stderr (program_name d ++ ": invalid option -- " ++ quoted c)])
  in
  if Ascii.eqb c ":" || Ascii.eqb c ";" then invalid
  else
    match optstring_lookup c optstring with
    | None => invalid
    | Some no_argument =>
        (Some c,
         {| ordering := ordering d; argv_done := argv_done d;
            nonopts := nonopts d; nextchar := r; argv_rest := argv_rest d;
            optarg := None; optopt := optopt d |},
         [])
    | Some optional_argument =>
        (Some c,
         {| ordering := ordering d; argv_done := argv_done d;
            nonopts := nonopts d; nextchar := EmptyString;
            argv_rest := argv_rest d;
            optarg := match r with
                      | EmptyString => None
                      | String _ _ => Some r
                      end;
            optopt := optopt d |},
         [])
    | Some required_argument =>
        match r with
        | String _ _ =>
            (* the rest of the element is the argument *)
            (Some c,
             {| ordering := ordering d; argv_done := argv_done d;
                nonopts := nonopts d; nextchar := EmptyString;
                argv_rest := argv_rest d;
                optarg := Some r; optopt := optopt d |},
             [])
        | EmptyString =>
            match argv_rest d with
            | [] =>
                (Some "?"%char,
                 {| ordering := ordering d; argv_done := argv_done d;
                    nonopts := nonopts d; nextchar := EmptyString;
                    argv_rest := [];
                    optarg := None; optopt := c |},
                 [fprintf_stderr
                    (program_name d ++ ": option requires an argument -- "
                       ++ quoted c)])
            | a :: rest =>
                (* the next element is the argument, whatever it looks like *)
                (Some c,
                 {| ordering := ordering d; argv_done := argv_done d ++ [a];
                    nonopts := nonopts d; nextchar := EmptyString;
                    argv_rest := rest;
                    optarg := Some a; optopt := optopt d |},
                 [])
            end
        end
    end.

(** [getopt (argc, argv, optstring)]: [None] is the return value -1. *)
Definition getopt (optstring : string) (d : getopt_data)
  : option ascii * getopt_data * list event :=
  match nextchar d with
  | String c r => short_option optstring c r d
  | EmptyString =>
      let (skipped, rest) :=
        match ordering d with
        | PERMUTE => skip_nonoptions (argv_rest d)
        | REQUIRE_ORDER => ([], argv_rest d)
        end in
      let passed := nonopts d ++ skipped in
      let finished (done rest : list string) :=
        (None,
         {| ordering := ordering d; argv_done := done; nonopts := [];
            nextchar := EmptyString; argv_rest := passed ++ rest;
            optarg := None; optopt := optopt d |},
         []) in
      match rest with
      | [] => finished (argv_done d) []
      | a :: rest' =>
          if String.eqb a "--" then finished (argv_done d ++ [a]) rest'
          else
            match a with
            | String c0 (String c r) =>
                if Ascii.eqb c0 "-" then
                  short_option optstring c r
                    {| ordering := ordering d; argv_done := argv_done d ++ [a];
                       nonopts := passed; nextchar := EmptyString;
                       argv_rest := rest';
                       optarg := None; optopt := optopt d |}
                else finished (argv_done d) rest
            | _ => finished (argv_done d) rest
            end
      end
  end.

(** What is left to scan; every call that returns an option lowers it. *)
Definition weight (l : list string) : nat :=
  list_sum (map (fun a => S (String.length a)) l).

Definition scan_measure (d : getopt_data) : nat :=
  String.length (nextchar d) + weight (argv_rest d).

End Getopt.
Export Getopt.

(* ------------------------------------------------------------------------- *)
(** ** option_handler.h and option_handler.c *)

Module OptionHandler.

Definition MAX_PORT_SIZE : nat := 6.

Definition MIN_NUM_THREADS : Z := 2.
Definition MAX_PORT_VALUE : Z := 65535.
Definition MIN_PORT_VALUE : Z := 1025.

(** [options_t].  [p_value] is a pointer into the argument vector: [None] is
    [NULL], [Some s] the text it points at. *)
Record options_t : Type := {
  n_flag : bool;
  n_value : Z;
  p_flag : bool;
  p_value : option string
}.

(** A zero-initialised record, as a caller declares it before parsing. *)
Definition options_zero : options_t :=
  {| n_flag := false; n_value := 0; p_flag := false; p_value := None |}.

(** The messages, named after the error kinds the specification gives them. *)
Definition msg_n_duplicate : string :=
  "process_options(): '-n' flag already true.".
Definition msg_n_invalid_number : string :=
  "Unable to convert 'n_value' to number.".
Definition msg_n_out_of_range : string :=
  "process_options(): Number of threads must be 2 or more.".
Definition msg_p_duplicate : string :=
  "process_p_option(): '-p' flag already true.".
Definition msg_p_invalid_number : string :=
  "process_p_option(): Unable to convert 'p_value' to number.".
Definition msg_p_out_of_range : string :=
  "process_p_option(): Port number out of range.".
Definition msg_p_too_long : string :=
  "process_p_option(): Port string is too long.".
Definition msg_unexpected_argument : string :=
  "Invalid arguments encountered: ".

Definition print_help_menu : list event :=
  [ printf ("Net Calc - Cyber Solutions Development - Tactical" ++ LF);
    printf ("-------------------------------------------------" ++ LF);
    printf ("Usage: ./netcalc [options]" ++ LF);
    printf ("Options:" ++ LF);
    printf ("  -p PORT   Port to listen on; (MIN: 1025, MAX: 65535) defaults to "
              ++ "31337." ++ LF);
    printf ("  -n NUM    Number of threads in the pool; (MIN: 2) defaults to 4."
              ++ LF);
    printf ("  -h        Print this help menu and exit." ++ LF);
    printf LF;
    printf ("Description:" ++ LF);
    printf ("  Net Calc is a server application that performs a variety of "
              ++ "operations." ++ LF);
    printf ("  It listens for incoming connections over network sockets, enqueues "
              ++ "the data," ++ LF);
    printf ("  and processes the work in a queue with a threadpool." ++ LF);
    printf LF;
    printf ("Examples:" ++ LF);
    printf ("  netcalc -p 8080 -n 8" ++ LF);
    printf ("  netcalc -h" ++ LF);
    printf LF;
    printf ("For more information, see the documentation." ++ LF) ]%string.

(** Each handler returns its exit code, the record behind [options_p] as the
    call leaves it, and what it printed. *)
Definition process_n_option (optarg : option string)
    (options_p : option options_t)
  : exit_status * option options_t * list event :=
  let exit_code := E_FAILURE in
  let num_threads_p := {| signed_num := 0 |} in
  match optarg, options_p with
  | Some arg, Some options =>
      if n_flag options then
        (exit_code, options_p, [print_error msg_n_duplicate])
      else
        let (exit_code, num_threads_p) := str_to_int32 arg num_threads_p in
        match exit_code with
        | E_SUCCESS =>
            if (MIN_NUM_THREADS >? signed_num num_threads_p)%Z then
              (E_FAILURE, options_p, [print_error msg_n_out_of_range])
            else
              (E_SUCCESS,
               Some {| n_flag := true;
                       n_value := signed_num num_threads_p;
                       p_flag := p_flag options;
                       p_value := p_value options |},
               [])
        | _ => (exit_code, options_p, [print_error msg_n_invalid_number])
        end
  | _, _ => (exit_code, options_p, [print_error "NULL argument passed."])
  end.

Definition process_p_option (optarg : option string)
    (options_p : option options_t)
  : exit_status * option options_t * list event :=
  let exit_code := E_FAILURE in
  let port_number_p := {| signed_num := 0 |} in
  match optarg, options_p with
  | Some arg, Some options =>
      if p_flag options then
        (exit_code, options_p, [print_error msg_p_duplicate])
      else
        let (exit_code, port_number_p) := str_to_int32 arg port_number_p in
        match exit_code with
        | E_SUCCESS =>
            if (MAX_PORT_VALUE <? signed_num port_number_p)%Z
               || (MIN_PORT_VALUE >? signed_num port_number_p)%Z then
              (E_FAILURE, options_p, [print_error msg_p_out_of_range])
            else
              let optarg_length := strnlen arg MAX_PORT_SIZE in
              if (MAX_PORT_SIZE <? optarg_length)%nat then
                (exit_code, options_p, [print_error msg_p_too_long])
              else
                (E_SUCCESS,
                 Some {| n_flag := n_flag options;
                         n_value := n_value options;
                         p_flag := true;
                         p_value := Some arg |},
                 [])
        | _ => (exit_code, options_p, [print_error msg_p_invalid_number])
        end
  | _, _ => (exit_code, options_p, [print_error "NULL argument passed."])
  end.

Definition report_invalid_options (d : getopt_data) : list event :=
  if Ascii.eqb (optopt d) "n" || Ascii.eqb (optopt d) "p" then
    [fprintf_stderr
       ("Option '-" ++ String (optopt d) "' requires an argument." ++ LF)]
  else
    [fprintf_stderr ("Unknown option '-" ++ String (optopt d) "'." ++ LF)].

(** [argv] is [None] for a [NULL] vector and [Some []] when [argv[0]] is
    [NULL].  The loop prints [argv[optind]] ... [argv[argc - 1]]. *)
Definition report_extra_arguments (optind argc : nat)
    (argv : option (list string)) : exit_status * list event :=
  let exit_code := E_FAILURE in
  match argv with
  | None | Some [] => (exit_code, [print_error "NULL argument passed."])
  | Some v =>
      if (optind <? argc)%nat then
        (exit_code,
         fprintf_stderr msg_unexpected_argument
           :: map (fun a => fprintf_stderr (a ++ " "))
                (firstn (argc - optind) (skipn optind v))
           ++ [fprintf_stderr LF])
      else (E_SUCCESS, [])
  end.

Definition optstring : string := "n:p:h".

(** How a piece of [process_options] hands control on: to the statement that
    follows it, or to the label [END]. *)
Inductive control : Type :=
| fall_through
| goto_END.

(** The body of the loop: the [switch] on what [getopt] returned.  [d] is the
    state [getopt] left, with [optarg] and [optopt]. *)
Definition switch_option (opt : ascii) (exit_code : exit_status)
    (d : getopt_data) (options_p : option options_t)
  : control * exit_status * option options_t * list event :=
  if Ascii.eqb opt "n" then
    let '(exit_code, options_p, out) := process_n_option (optarg d) options_p in
    match exit_code with
    | E_SUCCESS => (fall_through, exit_code, options_p, out)
    | _ =>
        (goto_END, exit_code, options_p,
         out ++ [print_error "Unable to process 'n' option."])
    end
  else if Ascii.eqb opt "p" then
    let '(exit_code, options_p, out) := process_p_option (optarg d) options_p in
    match exit_code with
    | E_SUCCESS => (fall_through, exit_code, options_p, out)
    | _ =>
        (goto_END, exit_code, options_p,
         out ++ [print_error "Unable to process 'p' option."])
    end
  else if Ascii.eqb opt "h" then
    (goto_END, exit_code, options_p, [])
  else if Ascii.eqb opt "?" then
    (goto_END, E_FAILURE, options_p, report_invalid_options d)
  else
    (goto_END, E_FAILURE, options_p,
     [fprintf_stderr ("Unknown option encountered." ++ LF)]).

(** [while (-1 != (option = getopt (argc, argv, optstring)))], with [opt] for
    the C variable [option].  The loop is
    written by recursion on [fuel]; [while_getopt_fuel] below shows that
    [S (scan_measure d)] is always enough, so the first branch is never the
    one that ends a run of [process_options]. *)
Fixpoint while_getopt (fuel : nat) (exit_code : exit_status)
    (d : getopt_data) (options_p : option options_t)
  : control * exit_status * getopt_data * option options_t * list event :=
  match fuel with
  | O => (goto_END, exit_code, d, options_p, [])
  | S fuel =>
      let '(opt, d, msg) := getopt optstring d in
      match opt with
      | None => (fall_through, exit_code, d, options_p, msg)
      | Some opt =>
          let '(ctl, exit_code, options_p, out) :=
            switch_option opt exit_code d options_p in
          match ctl with
          | goto_END => (goto_END, exit_code, d, options_p, msg ++ out)
          | fall_through =>
              let '(ctl, exit_code, d, options_p, out') :=
                while_getopt fuel exit_code d options_p in
              (ctl, exit_code, d, options_p, msg ++ out ++ out')
          end
      end
  end.

(** What a call of [process_options] leaves behind: the value it returns, the
    record behind [options_p], the state of [getopt] and the argument vector,
    and everything printed. *)
Record outcome : Type := {
  returned : exit_status;
  options_after : option options_t;
  getopt_after : option getopt_data;
  printed : list event
}.

(** The label [END]: the help menu is printed when [exit_code] is
    [E_FAILURE]. *)
Definition END (exit_code : exit_status) (argv : option getopt_data)
    (options_p : option options_t) (out : list event) : outcome :=
  {| returned := exit_code;
     options_after := options_p;
     getopt_after := argv;
     printed := out ++ match exit_code with
                       | E_FAILURE => print_help_menu
                       | E_SUCCESS => []
                       end |}.

(** [process_options (argc, argv, options_p)].  [argv] is [None] for a [NULL]
    vector; otherwise it comes with the state [getopt] is in when the call
    starts, and [argc] counts its elements. *)
Definition process_options (argv : option getopt_data)
    (options_p : option options_t) : outcome :=
  let exit_code := E_FAILURE in
  match argv, options_p with
  | Some d, Some _ =>
      match argv_vector d with
      | [] =>
          END exit_code argv options_p
            [print_error "process_options(): NULL argument passed."]
      | _ :: _ =>
          let '(ctl, exit_code, d, options_p, out) :=
            while_getopt (S (scan_measure d)) exit_code d options_p in
          match ctl with
          | goto_END => END exit_code (Some d) options_p out
          | fall_through =>
              let (exit_code, extra) :=
                report_extra_arguments (optind d) (argc d)
                  (Some (argv_vector d)) in
              match exit_code with
              | E_SUCCESS => END E_SUCCESS (Some d) options_p (out ++ extra)
              | _ =>
                  END exit_code (Some d) options_p
                    (out ++ extra ++ [print_error "Invalid arguments passed."])
              end
          end
      end
  | _, _ =>
      END exit_code argv options_p
        [print_error "process_options(): NULL argument passed."]
  end.

(** A first call in a process: [getopt] in its initial state. *)
Definition run (o : ordering_t) (argv : list string) : outcome :=
  process_options (Some (getopt_init o argv)) (Some options_zero).

End OptionHandler.
Export OptionHandler.

(* ------------------------------------------------------------------------- *)
(** ** The loop, iteration by iteration *)

(** The loop as [process_options] runs it. *)
Definition scan (ec : exit_status) (d : getopt_data) (o : option options_t)
  : control * exit_status * getopt_data * option options_t * list event :=
  while_getopt (S (scan_measure d)) ec d o.

(** The state of the loop between two iterations: the variable [exit_code],
    the state of [getopt], the record behind [options_p]. *)
Definition loop_state : Type :=
  (exit_status * getopt_data * option options_t)%type.

(** One full iteration after which the loop goes on. *)
Inductive iteration : loop_state -> loop_state -> Prop :=
| iteration_intro ec d o c d' msg ec' o' out :
    getopt optstring d = (Some c, d', msg) ->
    switch_option c ec d' o = (fall_through, ec', o', out) ->
    iteration (ec, d, o) (ec', d', o').

(** [reaches s s']: started in [s], the loop is in [s'] after some number of
    iterations. *)
Inductive reaches : loop_state -> loop_state -> Prop :=
| reaches_here s : reaches s s
| reaches_next s1 s2 s3 : iteration s1 s2 -> reaches s2 s3 -> reaches s1 s3.

(** The loop, one iteration at a time, on a given vector. *)
Ltac run_iteration :=
  eapply reaches_next;
  [ eapply iteration_intro; [reflexivity | reflexivity] | ].

(** Two states of [getopt] with the cursor at the same place of the same
    vector; [optarg] and [optopt] may differ. *)
Definition same_cursor (d1 d2 : getopt_data) : Prop :=
  ordering d1 = ordering d2
  /\ argv_done d1 = argv_done d2
  /\ nonopts d1 = nonopts d2
  /\ nextchar d1 = nextchar d2
  /\ argv_rest d1 = argv_rest d2.

(** Two results of [getopt] that no reader of them can tell apart: the same
    return value and message, the cursor at the same place, the same
    [optarg], and the same [optopt] where [?] says it is set. *)
Definition agree (x1 x2 : option ascii * getopt_data * list event) : Prop :=
  let '(r1, d1, m1) := x1 in
  let '(r2, d2, m2) := x2 in
  r1 = r2 /\ m1 = m2 /\ same_cursor d1 d2 /\ optarg d1 = optarg d2
  /\ (r1 = Some "?"%char -> optopt d1 = optopt d2).

(** What the two handlers establish for a record: a thread count that is set
    is at least [MIN_NUM_THREADS]; a port that is set is a text that
    [str_to_int32] converts to a number from [MIN_PORT_VALUE] to
    [MAX_PORT_VALUE]. *)
Definition options_valid (o : options_t) : bool :=
  (if n_flag o then (MIN_NUM_THREADS <=? n_value o)%Z else true)
  && (if p_flag o then
        match p_value o with
        | Some s =>
            match str_to_int32 s {| signed_num := 0 |} with
            | (E_SUCCESS, num) =>
                (MIN_PORT_VALUE <=? signed_num num)%Z
                && (signed_num num <=? MAX_PORT_VALUE)%Z
            | (E_FAILURE, _) => false
            end
        | None => false
        end
      else true).

(** What goes to the standard output: the [printf] calls. *)
Definition is_printf (e : event) : bool :=
  match e with
  | printf _ => true
  | _ => false
  end.

(* ------------------------------------------------------------------------- *)
(** * Properties *)

(** ** The scanner always makes progress *)

Lemma skip_nonoptions_split (l skipped rest : list string) :
  skip_nonoptions l = (skipped, rest) -> l = skipped ++ rest.
Proof.
  revert skipped rest.
  induction l as [|a l IH]; simpl; intros skipped rest H.
  - now inversion H.
  - destruct (nonoption a).
    + destruct (skip_nonoptions l) as [s r'] eqn:E.
      inversion H; subst. simpl. f_equal. now apply IH.
    + now inversion H.
Qed.

Lemma weight_app (l1 l2 : list string) :
  weight (l1 ++ l2) = weight l1 + weight l2.
Proof.
  unfold weight. now rewrite map_app, list_sum_app.
Qed.

Lemma weight_cons (a : string) (l : list string) :
  weight (a :: l) = S (String.length a) + weight l.
Proof. reflexivity. Qed.

Lemma short_option_measure (os : string) (c : ascii) (r : string)
    (d : getopt_data) (c' : ascii) (d' : getopt_data) (msg : list event) :
  short_option os c r d = (Some c', d', msg) ->
  scan_measure d' <= String.length r + weight (argv_rest d).
Proof.
  unfold short_option, scan_measure.
  destruct (Ascii.eqb c ":" || Ascii.eqb c ";").
  - intros H; inversion H; subst; cbn [nextchar argv_rest]. lia.
  - destruct (optstring_lookup c os) as [[| |]|].
    + intros H; inversion H; subst; cbn [nextchar argv_rest]. lia.
    + destruct r as [|c1 r1].
      * destruct (argv_rest d) as [|a rest] eqn:E;
          intros H; inversion H; subst; cbn [nextchar argv_rest].
        -- lia.
        -- rewrite weight_cons. lia.
      * intros H; inversion H; subst; cbn [nextchar argv_rest String.length].
        lia.
    + intros H; inversion H; subst; cbn [nextchar argv_rest String.length].
      lia.
    + intros H; inversion H; subst; cbn [nextchar argv_rest]. lia.
Qed.

(** Every call of [getopt] that returns an option consumes input. *)
Lemma getopt_measure (os : string) (d : getopt_data) (c : ascii)
    (d' : getopt_data) (msg : list event) :
  getopt os d = (Some c, d', msg) -> scan_measure d' < scan_measure d.
Proof.
  unfold getopt.
  destruct (nextchar d) as [|c0 r0] eqn:En.
  - set (sk := match ordering d with
               | PERMUTE => skip_nonoptions (argv_rest d)
               | REQUIRE_ORDER => ([], argv_rest d)
               end).
    assert (Hsplit : argv_rest d = fst sk ++ snd sk).
    { subst sk. destruct (ordering d); simpl; [reflexivity|].
      destruct (skip_nonoptions (argv_rest d)) as [s r] eqn:E.
      now apply skip_nonoptions_split. }
    destruct sk as [skipped rest]. simpl in Hsplit.
    destruct rest as [|a rest']; [discriminate|].
    destruct (String.eqb a "--"); [discriminate|].
    destruct a as [|c1 [|c2 r]]; try discriminate.
    destruct (Ascii.eqb c1 "-"); [|discriminate].
    intros H. apply short_option_measure in H.
    cbn [argv_rest] in H.
    unfold scan_measure at 2.
    rewrite En, Hsplit, weight_app, weight_cons.
    cbn [String.length]. lia.
  - intros H. apply short_option_measure in H.
    unfold scan_measure at 2. rewrite En. cbn [String.length]. lia.
Qed.

(** [getopt] writes a message only when it returns [?]. *)
Lemma short_option_quiet (os : string) (c : ascii) (r : string)
    (d : getopt_data) (c' : ascii) (d' : getopt_data) (msg : list event) :
  short_option os c r d = (Some c', d', msg) -> c' <> "?"%char -> msg = [].
Proof.
  unfold short_option.
  destruct (Ascii.eqb c ":" || Ascii.eqb c ";").
  - intros H; inversion H; subst. congruence.
  - destruct (optstring_lookup c os) as [[| |]|].
    + now intros H; inversion H.
    + destruct r as [|c1 r1].
      * destruct (argv_rest d) as [|a rest];
          intros H; inversion H; subst; congruence.
      * now intros H; inversion H.
    + now intros H; inversion H.
    + intros H; inversion H; subst. congruence.
Qed.

Lemma getopt_quiet (os : string) (d : getopt_data) (c : ascii)
    (d' : getopt_data) (msg : list event) :
  getopt os d = (Some c, d', msg) -> c <> "?"%char -> msg = [].
Proof.
  unfold getopt.
  destruct (nextchar d) as [|c0 r0].
  - destruct (match ordering d with
              | PERMUTE => skip_nonoptions (argv_rest d)
              | REQUIRE_ORDER => ([], argv_rest d)
              end) as [skipped rest].
    destruct rest as [|a rest']; [discriminate|].
    destruct (String.eqb a "--"); [discriminate|].
    destruct a as [|c1 [|c2 r]]; try discriminate.
    destruct (Ascii.eqb c1 "-"); [|discriminate].
    apply short_option_quiet.
  - apply short_option_quiet.
Qed.

(** When [getopt] returns -1 it has printed nothing, stands between two
    elements and has put the non-options it passed over back in front of the
    cursor: [argv[optind]] ... [argv[argc - 1]] are the elements left. *)
Lemma getopt_end (os : string) (d d' : getopt_data) (msg : list event) :
  getopt os d = (None, d', msg) ->
  msg = [] /\ nonopts d' = [] /\ nextchar d' = EmptyString.
Proof.
  unfold getopt.
  assert (Hs : forall c r e, short_option os c r e <> (None, d', msg)).
  { intros c r e. unfold short_option.
    destruct (Ascii.eqb c ":" || Ascii.eqb c ";"); [discriminate|].
    destruct (optstring_lookup c os) as [[| |]|]; try discriminate.
    destruct r; [destruct (argv_rest e)|]; discriminate. }
  destruct (nextchar d) as [|c0 r0]; [|intros H; now apply Hs in H].
  destruct (match ordering d with
            | PERMUTE => skip_nonoptions (argv_rest d)
            | REQUIRE_ORDER => ([], argv_rest d)
            end) as [skipped rest].
  destruct rest as [|a rest']; [now intros H; inversion H|].
  destruct (String.eqb a "--"); [now intros H; inversion H|].
  destruct a as [|c1 [|c2 r]]; try (now intros H; inversion H).
  destruct (Ascii.eqb c1 "-"); [|now intros H; inversion H].
  intros H; now apply Hs in H.
Qed.

(** ** The two option handlers *)

(** A handler that fails has stored nothing. *)
Lemma process_n_option_failure (optarg : option string)
    (options_p options_p' : option options_t) (out : list event) :
  process_n_option optarg options_p = (E_FAILURE, options_p', out) ->
  options_p' = options_p.
Proof.
  unfold process_n_option.
  destruct optarg as [arg|], options_p as [options|];
    try (now intros H; inversion H).
  destruct (n_flag options); [now intros H; inversion H|].
  destruct (str_to_int32 arg _) as [[|] num]; [|now intros H; inversion H].
  destruct (MIN_NUM_THREADS >? signed_num num)%Z; now intros H; inversion H.
Qed.

Lemma process_p_option_failure (optarg : option string)
    (options_p options_p' : option options_t) (out : list event) :
  process_p_option optarg options_p = (E_FAILURE, options_p', out) ->
  options_p' = options_p.
Proof.
  unfold process_p_option.
  destruct optarg as [arg|], options_p as [options|];
    try (now intros H; inversion H).
  destruct (p_flag options); [now intros H; inversion H|].
  destruct (str_to_int32 arg _) as [[|] num]; [|now intros H; inversion H].
  destruct ((MAX_PORT_VALUE <? signed_num num)%Z
            || (MIN_PORT_VALUE >? signed_num num)%Z);
    [now intros H; inversion H|].
  destruct (MAX_PORT_SIZE <? strnlen arg MAX_PORT_SIZE)%nat;
    now intros H; inversion H.
Qed.

(** [strnlen] never exceeds its bound. *)
Lemma strnlen_le (s : string) (maxlen : nat) : strnlen s maxlen <= maxlen.
Proof.
  revert s. induction maxlen as [|m IH]; intros s; simpl.
  - reflexivity.
  - destruct s as [|c r]; [lia|]. specialize (IH r). lia.
Qed.

Lemma port_length_check_false (arg : string) :
  (MAX_PORT_SIZE <? strnlen arg MAX_PORT_SIZE)%nat = false.
Proof.
  apply Nat.ltb_ge, strnlen_le.
Qed.

(** A handler that succeeds has printed nothing. *)
Lemma process_n_option_success (optarg : option string)
    (options_p options_p' : option options_t) (out : list event) :
  process_n_option optarg options_p = (E_SUCCESS, options_p', out) ->
  out = [].
Proof.
  unfold process_n_option.
  destruct optarg as [arg|], options_p as [options|];
    try (now intros H; inversion H).
  destruct (n_flag options); [now intros H; inversion H|].
  destruct (str_to_int32 arg _) as [[|] num]; [|now intros H; inversion H].
  destruct (MIN_NUM_THREADS >? signed_num num)%Z; now intros H; inversion H.
Qed.

Lemma process_p_option_success (optarg : option string)
    (options_p options_p' : option options_t) (out : list event) :
  process_p_option optarg options_p = (E_SUCCESS, options_p', out) ->
  out = [].
Proof.
  unfold process_p_option.
  destruct optarg as [arg|], options_p as [options|];
    try (now intros H; inversion H).
  destruct (p_flag options); [now intros H; inversion H|].
  destruct (str_to_int32 arg _) as [[|] num]; [|now intros H; inversion H].
  destruct ((MAX_PORT_VALUE <? signed_num num)%Z
            || (MIN_PORT_VALUE >? signed_num num)%Z);
    [now intros H; inversion H|].
  rewrite port_length_check_false. now intros H; inversion H.
Qed.

(** ** The loop of [process_options] *)

(** The [switch] lets the loop go on only after a handler has succeeded, and
    then nothing was printed. *)
Lemma switch_option_fall_through (c : ascii) (ec : exit_status)
    (d : getopt_data) (o : option options_t) (ec' : exit_status)
    (o' : option options_t) (out : list event) :
  switch_option c ec d o = (fall_through, ec', o', out) ->
  ec' = E_SUCCESS /\ out = [] /\ c <> "?"%char.
Proof.
  unfold switch_option.
  destruct (Ascii.eqb c "n") eqn:En.
  - apply Ascii.eqb_eq in En; subst c.
    destruct (process_n_option (optarg d) o) as [[[|] o1] out1] eqn:E;
      intros H; inversion H; subst.
    apply process_n_option_success in E. repeat split; congruence.
  - destruct (Ascii.eqb c "p") eqn:Ep.
    + apply Ascii.eqb_eq in Ep; subst c.
      destruct (process_p_option (optarg d) o) as [[[|] o1] out1] eqn:E;
        intros H; inversion H; subst.
      apply process_p_option_success in E. repeat split; congruence.
    + destruct (Ascii.eqb c "h"); [discriminate|].
      destruct (Ascii.eqb c "?"); discriminate.
Qed.

(** Whatever sends the [switch] to [END] has left the record alone. *)
Lemma switch_option_goto_END (c : ascii) (ec : exit_status)
    (d : getopt_data) (o : option options_t) (ec' : exit_status)
    (o' : option options_t) (out : list event) :
  switch_option c ec d o = (goto_END, ec', o', out) -> o' = o.
Proof.
  unfold switch_option.
  destruct (Ascii.eqb c "n").
  - destruct (process_n_option (optarg d) o) as [[[|] o1] out1] eqn:E;
      intros H; inversion H; subst.
    now apply process_n_option_failure in E.
  - destruct (Ascii.eqb c "p").
    + destruct (process_p_option (optarg d) o) as [[[|] o1] out1] eqn:E;
        intros H; inversion H; subst.
      now apply process_p_option_failure in E.
    + destruct (Ascii.eqb c "h"); [now intros H; inversion H|].
      destruct (Ascii.eqb c "?"); now intros H; inversion H.
Qed.

(** Any fuel above the measure gives the same run: the loop terminates. *)
Lemma while_getopt_fuel (n m : nat) (ec : exit_status) (d : getopt_data)
    (o : option options_t) :
  scan_measure d < n -> scan_measure d < m ->
  while_getopt n ec d o = while_getopt m ec d o.
Proof.
  revert m ec d o.
  induction n as [|n IH]; intros [|m] ec d o Hn Hm; try lia.
  cbn [while_getopt].
  destruct (getopt optstring d) as [[[c|] d'] msg] eqn:E; [|reflexivity].
  destruct (switch_option c ec d' o) as [[[[|] ec'] o'] out]; [|reflexivity].
  apply getopt_measure in E.
  rewrite (IH m) by lia. reflexivity.
Qed.

Lemma scan_eq (ec : exit_status) (d : getopt_data) (o : option options_t) :
  scan ec d o =
  let '(opt, d', msg) := getopt optstring d in
  match opt with
  | None => (fall_through, ec, d', o, msg)
  | Some opt =>
      let '(ctl, ec', o', out) := switch_option opt ec d' o in
      match ctl with
      | goto_END => (goto_END, ec', d', o', msg ++ out)
      | fall_through =>
          let '(ctl, ec'', d'', o'', out') := scan ec' d' o' in
          (ctl, ec'', d'', o'', msg ++ out ++ out')
      end
  end.
Proof.
  unfold scan at 1. cbn [while_getopt].
  destruct (getopt optstring d) as [[[c|] d'] msg] eqn:E; [|reflexivity].
  destruct (switch_option c ec d' o) as [[[[|] ec'] o'] out]; [|reflexivity].
  apply getopt_measure in E. unfold scan.
  rewrite (while_getopt_fuel (scan_measure d) (S (scan_measure d'))) by lia.
  reflexivity.
Qed.

Lemma scan_iteration (ec : exit_status) (d : getopt_data)
    (o : option options_t) (ec' : exit_status) (d' : getopt_data)
    (o' : option options_t) :
  iteration (ec, d, o) (ec', d', o') -> scan ec d o = scan ec' d' o'.
Proof.
  intros H. inversion H as [? ? ? c ? msg ? ? out Hg Hs]; subst.
  rewrite scan_eq, Hg, Hs.
  destruct (switch_option_fall_through _ _ _ _ _ _ _ Hs) as (_ & -> & Hc).
  rewrite (getopt_quiet _ _ _ _ _ Hg Hc).
  now destruct (scan ec' d' o') as [[[[ctl e] d2] o2] out2].
Qed.

Lemma scan_reaches (ec : exit_status) (d : getopt_data)
    (o : option options_t) (ec' : exit_status) (d' : getopt_data)
    (o' : option options_t) :
  reaches (ec, d, o) (ec', d', o') -> scan ec d o = scan ec' d' o'.
Proof.
  intros H.
  remember (ec, d, o) as s eqn:Es. remember (ec', d', o') as s' eqn:Es'.
  revert ec d o Es. induction H as [s|s1 [[e2 d2] o2] s3 Hi Hr IH];
    intros ec d o Es; subst.
  - now inversion Es.
  - rewrite (scan_iteration _ _ _ _ _ _ Hi). now apply IH.
Qed.

(** Every run of the loop ends in one of two ways, in a state it reaches:
    [getopt] returns -1, or the [switch] jumps to [END]. *)
Lemma scan_inv (ec : exit_status) (d : getopt_data) (o : option options_t) :
  exists ec1 d1 o1,
    reaches (ec, d, o) (ec1, d1, o1) /\
    ((exists d', getopt optstring d1 = (None, d', []) /\
                 scan ec d o = (fall_through, ec1, d', o1, []))
     \/
     (exists c d' msg ec' out,
         getopt optstring d1 = (Some c, d', msg) /\
         switch_option c ec1 d' o1 = (goto_END, ec', o1, out) /\
         scan ec d o = (goto_END, ec', d', o1, msg ++ out))).
Proof.
  remember (scan_measure d) as n eqn:En.
  revert ec d o En.
  induction n as [n IH] using lt_wf_ind; intros ec d o En.
  destruct (getopt optstring d) as [[[c|] d'] msg] eqn:Hg.
  - destruct (switch_option c ec d' o) as [[[[|] ec'] o'] out] eqn:Hs.
    + assert (Hi : iteration (ec, d, o) (ec', d', o'))
        by (econstructor; eassumption).
      pose proof (getopt_measure _ _ _ _ _ Hg) as Hlt.
      destruct (IH (scan_measure d') ltac:(lia) ec' d' o' eq_refl)
        as (ec1 & d1 & o1 & Hr & Hend).
      exists ec1, d1, o1. split; [econstructor; eassumption|].
      now rewrite (scan_iteration _ _ _ _ _ _ Hi).
    + pose proof (switch_option_goto_END _ _ _ _ _ _ _ Hs) as ->.
      exists ec, d, o. split; [constructor|]. right.
      exists c, d', msg, ec', out. repeat split; try assumption.
      now rewrite scan_eq, Hg, Hs.
  - destruct (getopt_end _ _ _ _ Hg) as (-> & _).
    exists ec, d, o. split; [constructor|]. left.
    exists d'. split; [assumption|]. now rewrite scan_eq, Hg.
Qed.

(** For ["n:p:h"], [getopt] hands an argument over with [n] and [p]. *)
Lemma short_option_optarg (os : string) (c : ascii) (r : string)
    (d : getopt_data) (c' : ascii) (d' : getopt_data) (msg : list event) :
  short_option os c r d = (Some c', d', msg) ->
  optstring_lookup c' os = Some required_argument ->
  c' <> "?"%char ->
  exists a, optarg d' = Some a.
Proof.
  unfold short_option.
  destruct (Ascii.eqb c ":" || Ascii.eqb c ";").
  - intros H; inversion H; subst. congruence.
  - destruct (optstring_lookup c os) as [[| |]|] eqn:El.
    + intros H; inversion H; subst. congruence.
    + destruct r as [|c1 r1].
      * destruct (argv_rest d) as [|a rest];
          intros H; inversion H; subst; [congruence|].
        intros _ _. now exists a.
      * intros H; inversion H; subst. intros _ _. now eexists.
    + intros H; inversion H; subst. congruence.
    + intros H; inversion H; subst. congruence.
Qed.

Lemma getopt_optarg (d : getopt_data) (c : ascii) (d' : getopt_data)
    (msg : list event) :
  getopt optstring d = (Some c, d', msg) ->
  c = "n"%char \/ c = "p"%char ->
  exists a, optarg d' = Some a.
Proof.
  intros H Hc.
  assert (Hl : optstring_lookup c optstring = Some required_argument)
    by (destruct Hc; subst; reflexivity).
  assert (Hq : c <> "?"%char) by (destruct Hc; subst; discriminate).
  revert H. unfold getopt.
  destruct (nextchar d) as [|c0 r0].
  - destruct (match ordering d with
              | PERMUTE => skip_nonoptions (argv_rest d)
              | REQUIRE_ORDER => ([], argv_rest d)
              end) as [skipped rest].
    destruct rest as [|a rest']; [discriminate|].
    destruct (String.eqb a "--"); [discriminate|].
    destruct a as [|c1 [|c2 r]]; try discriminate.
    destruct (Ascii.eqb c1 "-"); [|discriminate].
    intros H. eapply short_option_optarg; eassumption.
  - intros H. eapply short_option_optarg; eassumption.
Qed.

(** [getopt] reorders the argument vector at most: [argc] never changes. *)
Lemma short_option_argc (os : string) (c : ascii) (r : string)
    (d : getopt_data) (res : option ascii) (d' : getopt_data)
    (msg : list event) :
  short_option os c r d = (res, d', msg) -> argc d' = argc d.
Proof.
  unfold short_option, argc, argv_vector.
  destruct (Ascii.eqb c ":" || Ascii.eqb c ";").
  - now intros H; inversion H.
  - destruct (optstring_lookup c os) as [[| |]|];
      try (now intros H; inversion H).
    destruct r as [|c1 r1]; [|now intros H; inversion H].
    destruct (argv_rest d) as [|a rest];
      intros H; inversion H; subst; cbn [argv_done nonopts argv_rest].
    + reflexivity.
    + rewrite !length_app. simpl. lia.
Qed.

Lemma getopt_argc (os : string) (d : getopt_data) (res : option ascii)
    (d' : getopt_data) (msg : list event) :
  getopt os d = (res, d', msg) -> argc d' = argc d.
Proof.
  unfold getopt.
  destruct (nextchar d) as [|c0 r0]; [|apply short_option_argc].
  set (sk := match ordering d with
             | PERMUTE => skip_nonoptions (argv_rest d)
             | REQUIRE_ORDER => ([], argv_rest d)
             end).
  assert (Hsplit : argv_rest d = fst sk ++ snd sk).
  { subst sk. destruct (ordering d); simpl; [reflexivity|].
    destruct (skip_nonoptions (argv_rest d)) as [s r] eqn:E.
    now apply skip_nonoptions_split. }
  destruct sk as [skipped rest]. simpl in Hsplit.
  assert (Hfin : forall a0 rest0,
             List.length (argv_done d ++ a0) + List.length rest0
             = List.length (argv_done d) + List.length rest ->
             argc {| ordering := ordering d; argv_done := argv_done d ++ a0;
                     nonopts := []; nextchar := EmptyString;
                     argv_rest := (nonopts d ++ skipped) ++ rest0;
                     optarg := None; optopt := optopt d |} = argc d).
  { intros a0 rest0 Hl. unfold argc, argv_vector.
    cbn [argv_done nonopts argv_rest]. rewrite Hsplit.
    rewrite ?length_app in *. simpl. lia. }
  assert (Hfin0 : argc {| ordering := ordering d; argv_done := argv_done d;
                          nonopts := []; nextchar := EmptyString;
                          argv_rest := (nonopts d ++ skipped) ++ rest;
                          optarg := None; optopt := optopt d |} = argc d).
  { specialize (Hfin [] rest). rewrite app_nil_r in Hfin. now apply Hfin. }
  destruct rest as [|a rest'].
  - intros H; inversion H; subst. exact Hfin0.
  - destruct (String.eqb a "--").
    + intros H; inversion H; subst. apply Hfin.
      rewrite length_app. simpl. lia.
    + destruct a as [|c1 [|c2 r]];
        try (intros H; inversion H; subst; exact Hfin0).
      destruct (Ascii.eqb c1 "-");
        [|intros H; inversion H; subst; exact Hfin0].
      intros H. apply short_option_argc in H. rewrite H.
      unfold argc, argv_vector. cbn [argv_done nonopts argv_rest].
      rewrite Hsplit, !length_app. simpl. lia.
Qed.

Lemma reaches_argc (s s' : loop_state) :
  reaches s s' -> argc (snd (fst s')) = argc (snd (fst s)).
Proof.
  induction 1 as [s|s1 s2 s3 Hi Hr IH]; [reflexivity|].
  rewrite IH. destruct Hi as [ec d o c d' msg ec' o' out Hg Hs]. simpl.
  eapply getopt_argc; eassumption.
Qed.

Lemma argc_nonempty (d : getopt_data) : argv_vector d <> [] <-> 0 < argc d.
Proof.
  unfold argc. destruct (argv_vector d); simpl; split; intros H;
    try lia; congruence.
Qed.

(** What [report_extra_arguments] does once [getopt] has returned -1. *)
Lemma report_extra_arguments_after_scan (d : getopt_data) :
  0 < argc d ->
  report_extra_arguments (optind d) (argc d) (Some (argv_vector d)) =
  if (optind d <? argc d)%nat
  then (E_FAILURE,
        fprintf_stderr msg_unexpected_argument
          :: map (fun a => fprintf_stderr (a ++ " ")%string)
               (skipn (optind d) (argv_vector d))
          ++ [fprintf_stderr LF])
  else (E_SUCCESS, []).
Proof.
  intros Hpos. unfold report_extra_arguments, argc in *.
  destruct (argv_vector d) as [|a v] eqn:Ev; [simpl in Hpos; lia|].
  destruct (optind d <? List.length (a :: v))%nat; [|reflexivity].
  rewrite firstn_all2; [reflexivity|].
  rewrite length_skipn. lia.
Qed.

(* ------------------------------------------------------------------------- *)
(** * The claims *)

(** ** [process_options] in terms of the loop *)

Section Run.

(** A call [process_options (argc, argv, options_p)] with a vector that has
    its [argv[0]] and a record [o0] behind [options_p]; [getopt] is in the
    state [d0] when the call starts. *)
Variable d0 : getopt_data.
Variable o0 : options_t.
Hypothesis argv0 : argv_vector d0 <> [].

Lemma process_options_goto (ec : exit_status) (d : getopt_data) (o : option options_t) (c : ascii)
    (d' : getopt_data) (msg : list event) (ec' : exit_status)
    (o' : option options_t) (out : list event) :
  reaches (E_FAILURE, d0, Some o0) (ec, d, o) ->
  getopt optstring d = (Some c, d', msg) ->
  switch_option c ec d' o = (goto_END, ec', o', out) ->
  process_options (Some d0) (Some o0) = END ec' (Some d') o (msg ++ out).
Proof.
  intros Hr Hg Hs. unfold process_options.
  destruct (argv_vector d0) as [|a0 v]; [contradiction|].
  change (while_getopt (S (scan_measure d0)) E_FAILURE d0 (Some o0))
    with (scan E_FAILURE d0 (Some o0)).
  rewrite (scan_reaches _ _ _ _ _ _ Hr), scan_eq, Hg, Hs.
  now rewrite (switch_option_goto_END _ _ _ _ _ _ _ Hs).
Qed.

Lemma process_options_end (ec : exit_status) (d : getopt_data)
    (o : option options_t) (d' : getopt_data) (msg : list event) :
  reaches (E_FAILURE, d0, Some o0) (ec, d, o) ->
  getopt optstring d = (None, d', msg) ->
  process_options (Some d0) (Some o0) =
  let (exit_code, extra) :=
    report_extra_arguments (optind d') (argc d') (Some (argv_vector d')) in
  match exit_code with
  | E_SUCCESS => END E_SUCCESS (Some d') o extra
  | E_FAILURE =>
      END E_FAILURE (Some d') o
        (extra ++ [print_error "Invalid arguments passed."])
  end.
Proof.
  intros Hr Hg. unfold process_options.
  destruct (argv_vector d0) as [|a0 v]; [contradiction|].
  change (while_getopt (S (scan_measure d0)) E_FAILURE d0 (Some o0))
    with (scan E_FAILURE d0 (Some o0)).
  rewrite (scan_reaches _ _ _ _ _ _ Hr), scan_eq, Hg.
  destruct (getopt_end _ _ _ _ Hg) as (-> & _).
  destruct (report_extra_arguments _ _ _) as [[|] extra]; reflexivity.
Qed.

(** [case 'h'] leaves [exit_code] as it finds it: [E_FAILURE] when no option
    has been handled yet, [E_SUCCESS] after any option handled with
    success. *)
Lemma iteration_exit_code (s s' : loop_state) :
  iteration s s' -> fst (fst s') = E_SUCCESS.
Proof.
  intros [ec d o c d' msg ec' o' out Hg Hs]. simpl.
  now destruct (switch_option_fall_through _ _ _ _ _ _ _ Hs) as (-> & _).
Qed.

Lemma reaches_exit_code (s s' : loop_state) :
  reaches s s' -> s' = s \/ fst (fst s') = E_SUCCESS.
Proof.
  induction 1 as [s|s1 s2 s3 Hi Hr IH]; [now left|].
  destruct IH as [->|IH]; [|now right].
  right. eapply iteration_exit_code; eassumption.
Qed.

Lemma process_options_help (ec : exit_status) (d : getopt_data)
    (o : option options_t) (d' : getopt_data) (msg : list event) :
  reaches (E_FAILURE, d0, Some o0) (ec, d, o) ->
  getopt optstring d = (Some "h"%char, d', msg) ->
  process_options (Some d0) (Some o0) = END ec (Some d') o [].
Proof.
  intros Hr Hg.
  rewrite (getopt_quiet _ _ _ _ _ Hg) in Hg by discriminate.
  now rewrite (process_options_goto ec d o "h" d' [] ec o [] Hr Hg).
Qed.

(** ** Fail-fast scanning *)


(** ** Leftover arguments *)

(** C8.  When the scan has run to its end ([getopt] returned -1) and elements
    of the vector are left ([optind < argc]), [process_options] fails, and
    what it prints is the line that lists every one of them
    ([argv[optind]] to [argv[argc - 1]], each followed by a blank), the
    message of the caller and the help menu.  The record keeps what the
    options stored. *)
Theorem extra_arguments_are_rejected (ec : exit_status) (d : getopt_data)
    (o : option options_t) (d' : getopt_data) (msg : list event) :
  reaches (E_FAILURE, d0, Some o0) (ec, d, o) ->
  getopt optstring d = (None, d', msg) ->
  optind d' < argc d' ->
  let r := process_options (Some d0) (Some o0) in
  returned r = E_FAILURE
  /\ printed r =
       (fprintf_stderr msg_unexpected_argument
          :: map (fun a => fprintf_stderr (a ++ " ")%string)
               (skipn (optind d') (argv_vector d'))
          ++ [fprintf_stderr LF])
       ++ [print_error "Invalid arguments passed."]
       ++ print_help_menu
  /\ options_after r = o
  /\ getopt_after r = Some d'.
Proof.
  intros Hr Hg Hlt r. subst r.
  rewrite (process_options_end _ _ _ _ _ Hr Hg).
  rewrite report_extra_arguments_after_scan by lia.
  apply Nat.ltb_lt in Hlt. rewrite Hlt.
  cbn [END returned printed options_after getopt_after].
  rewrite <- app_assoc. repeat split.
Qed.

(** ** Repeated options *)

(** C7.  When the scan comes to [-n] while [n_flag] is already set, or to
    [-p] while [p_flag] is already set, [process_options] fails with the
    message for a repeated option, whatever the value given with it, and the
    record keeps the earlier value. *)
Theorem repeated_option_is_rejected (ec : exit_status) (d : getopt_data)
    (o : options_t) (c : ascii) (d' : getopt_data) (msg : list event) :
  reaches (E_FAILURE, d0, Some o0) (ec, d, Some o) ->
  getopt optstring d = (Some c, d', msg) ->
  let r := process_options (Some d0) (Some o0) in
  (c = "n"%char -> n_flag o = true ->
   returned r = E_FAILURE
   /\ options_after r = Some o
   /\ printed r = [print_error msg_n_duplicate;
                   print_error "Unable to process 'n' option."]
                  ++ print_help_menu)
  /\
  (c = "p"%char -> p_flag o = true ->
   returned r = E_FAILURE
   /\ options_after r = Some o
   /\ printed r = [print_error msg_p_duplicate;
                   print_error "Unable to process 'p' option."]
                  ++ print_help_menu).
Proof.
  intros Hr Hg r. subst r.
  split; intros -> Hflag.
  - destruct (getopt_optarg _ _ _ _ Hg (or_introl eq_refl)) as [a Ha].
    rewrite (getopt_quiet _ _ _ _ _ Hg) in Hg by discriminate.
    assert (Hs : switch_option "n" ec d' (Some o)
                 = (goto_END, E_FAILURE, Some o,
                    [print_error msg_n_duplicate;
                     print_error "Unable to process 'n' option."])).
    { unfold switch_option, process_n_option. cbn [Ascii.eqb Bool.eqb].
      now rewrite Ha, Hflag. }
    rewrite (process_options_goto _ _ _ _ _ _ _ _ _ Hr Hg Hs).
    repeat split.
  - destruct (getopt_optarg _ _ _ _ Hg (or_intror eq_refl)) as [a Ha].
    rewrite (getopt_quiet _ _ _ _ _ Hg) in Hg by discriminate.
    assert (Hs : switch_option "p" ec d' (Some o)
                 = (goto_END, E_FAILURE, Some o,
                    [print_error msg_p_duplicate;
                     print_error "Unable to process 'p' option."])).
    { unfold switch_option, process_p_option. cbn [Ascii.eqb Bool.eqb].
      now rewrite Ha, Hflag. }
    rewrite (process_options_goto _ _ _ _ _ _ _ _ _ Hr Hg Hs).
    repeat split.
Qed.

(** ** The record after a failure *)

(** Not C4 as stated: after [-n 4 -p 80] the call fails, and the caller's
    record holds the thread count that [-n 4] stored. *)
Lemma failure_leaves_earlier_option_in_record :
  let r := run PERMUTE ["netcalc"; "-n"; "4"; "-p"; "80"] in
  returned r = E_FAILURE
  /\ options_after r = Some {| n_flag := true; n_value := 4;
                               p_flag := false; p_value := None |}
  /\ options_after r <> Some options_zero.
Proof.
  vm_compute. repeat split; discriminate.
Qed.

(** C4, amended.  When [process_options] fails, the record is the one the
    loop had built from the options handled with success before the scan
    stopped: either [getopt] had returned -1 and arguments were left over, or
    the [switch] jumped to [END], and what made it jump stored nothing.
    Nothing is rolled back. *)
Theorem failure_keeps_earlier_options :
  returned (process_options (Some d0) (Some o0)) = E_FAILURE ->
  exists ec d o,
    reaches (E_FAILURE, d0, Some o0) (ec, d, o)
    /\ options_after (process_options (Some d0) (Some o0)) = o
    /\ ((exists d' msg,
            getopt optstring d = (None, d', msg) /\ optind d' < argc d')
        \/
        (exists c d' msg out,
            getopt optstring d = (Some c, d', msg)
            /\ switch_option c ec d' o = (goto_END, E_FAILURE, o, out))).
Proof.
  intros Hf.
  destruct (scan_inv E_FAILURE d0 (Some o0))
    as (ec & d & o & Hr
        & [(d' & Hg & _) | (c & d' & msg & ec' & out & Hg & Hs & _)]).
  - exists ec, d, o. split; [exact Hr|].
    rewrite (process_options_end _ _ _ _ _ Hr Hg) in *.
    assert (Hpos : 0 < argc d').
    { rewrite (getopt_argc _ _ _ _ _ Hg).
      apply reaches_argc in Hr. simpl in Hr. rewrite Hr.
      apply argc_nonempty, argv0. }
    rewrite report_extra_arguments_after_scan in * by exact Hpos.
    destruct (optind d' <? argc d')%nat eqn:El; [|discriminate].
    split; [reflexivity|]. left. exists d', [].
    split; [exact Hg|now apply Nat.ltb_lt].
  - exists ec, d, o. split; [exact Hr|].
    rewrite (process_options_goto _ _ _ _ _ _ _ _ _ Hr Hg Hs) in *.
    simpl in Hf. subst ec'.
    split; [reflexivity|]. right. now exists c, d', msg, out.
Qed.

End Run.

(** ** Instances *)


(** [-p 8080 extra]: the scan ends, [extra] is left and is listed. *)
Lemma extra_arguments_are_rejected_witness :
  let r := run PERMUTE ["netcalc"; "-p"; "8080"; "extra"] in
  returned r = E_FAILURE
  /\ printed r =
       [fprintf_stderr msg_unexpected_argument;
        fprintf_stderr "extra ";
        fprintf_stderr LF;
        print_error "Invalid arguments passed."] ++ print_help_menu.
Proof.
  edestruct (extra_arguments_are_rejected
               (getopt_init PERMUTE ["netcalc"; "-p"; "8080"; "extra"])
               options_zero)
    as (H1 & H2 & H3 & H4).
  - discriminate.
  - run_iteration. apply reaches_here.
  - reflexivity.
  - vm_compute. lia.
  - unfold run. rewrite H1, H2. split; reflexivity.
Defined.

(** [-n 4 -n 8]: the second [-n] is refused and the record keeps 4. *)
Lemma repeated_option_is_rejected_witness :
  let r := run PERMUTE ["netcalc"; "-n"; "4"; "-n"; "8"] in
  returned r = E_FAILURE
  /\ options_after r = Some {| n_flag := true; n_value := 4;
                               p_flag := false; p_value := None |}
  /\ printed r = [print_error msg_n_duplicate;
                  print_error "Unable to process 'n' option."]
                 ++ print_help_menu.
Proof.
  edestruct (repeated_option_is_rejected
               (getopt_init PERMUTE ["netcalc"; "-n"; "4"; "-n"; "8"])
               options_zero)
    as [Hn _].
  - discriminate.
  - run_iteration. apply reaches_here.
  - reflexivity.
  - exact (Hn eq_refl eq_refl).
Defined.

(** [-n 4 -p 80]: the failing run of the amended C4. *)
Lemma failure_keeps_earlier_options_witness :
  exists ec d o,
    reaches
      (E_FAILURE, getopt_init PERMUTE ["netcalc"; "-n"; "4"; "-p"; "80"],
       Some options_zero) (ec, d, o)
    /\ options_after (run PERMUTE ["netcalc"; "-n"; "4"; "-p"; "80"]) = o
    /\ ((exists d' msg,
            getopt optstring d = (None, d', msg) /\ optind d' < argc d')
        \/
        (exists c d' msg out,
            getopt optstring d = (Some c, d', msg)
            /\ switch_option c ec d' o = (goto_END, E_FAILURE, o, out))).
Proof.
  apply (failure_keeps_earlier_options
           (getopt_init PERMUTE ["netcalc"; "-n"; "4"; "-p"; "80"])
           options_zero).
  - discriminate.
  - reflexivity.
Defined.

(** ** Successive invocations *)

Lemma short_option_same_cursor (os : string) (c : ascii) (r : string)
    (d1 d2 : getopt_data) :
  optstring_lookup "?" os = None ->
  same_cursor d1 d2 ->
  agree (short_option os c r d1) (short_option os c r d2).
Proof.
  intros Hq (Ho & Hd & Hn & Hc & Hr).
  unfold short_option, program_name. rewrite <- Ho, <- Hd, <- Hn, <- Hr.
  destruct (Ascii.eqb c ":" || Ascii.eqb c ";");
    [unfold agree, same_cursor; simpl; intuition|].
  destruct (optstring_lookup c os) as [[| |]|] eqn:El.
  - unfold agree, same_cursor; simpl.
    repeat split; intros H; inversion H; subst; congruence.
  - destruct r as [|c1 r1];
      [destruct (argv_rest d1) as [|a rest]|];
      unfold agree, same_cursor; simpl;
      repeat split; intros H; inversion H; subst; congruence.
  - unfold agree, same_cursor; simpl.
    repeat split; intros H; inversion H; subst; congruence.
  - unfold agree, same_cursor; simpl. intuition.
Qed.

Lemma getopt_same_cursor (os : string) (d1 d2 : getopt_data) :
  optstring_lookup "?" os = None ->
  same_cursor d1 d2 ->
  agree (getopt os d1) (getopt os d2).
Proof.
  intros Hq Hsame. pose proof Hsame as (Ho & Hd & Hn & Hc & Hr).
  unfold getopt. rewrite <- Ho, <- Hd, <- Hn, <- Hc, <- Hr.
  destruct (nextchar d1) as [|c0 r0];
    [|now apply short_option_same_cursor].
  destruct (match ordering d1 with
            | PERMUTE => skip_nonoptions (argv_rest d1)
            | REQUIRE_ORDER => ([], argv_rest d1)
            end) as [skipped rest].
  assert (Hfin : forall done rest0,
             agree
               (None,
                {| ordering := ordering d1; argv_done := done; nonopts := [];
                   nextchar := EmptyString;
                   argv_rest := (nonopts d1 ++ skipped) ++ rest0;
                   optarg := None; optopt := optopt d1 |}, [])
               (None,
                {| ordering := ordering d1; argv_done := done; nonopts := [];
                   nextchar := EmptyString;
                   argv_rest := (nonopts d1 ++ skipped) ++ rest0;
                   optarg := None; optopt := optopt d2 |}, [])).
  { intros done rest0. unfold agree, same_cursor; simpl.
    repeat split. discriminate. }
  destruct rest as [|a rest']; [apply Hfin|].
  destruct (String.eqb a "--"); [apply Hfin|].
  destruct a as [|c1 [|c2 r]]; try apply Hfin.
  destruct (Ascii.eqb c1 "-"); [|apply Hfin].
  apply short_option_same_cursor; [exact Hq|].
  unfold same_cursor; simpl. repeat split.
Qed.

Lemma switch_option_same (c : ascii) (ec : exit_status)
    (d1 d2 : getopt_data) (o : option options_t) :
  optarg d1 = optarg d2 ->
  (c = "?"%char -> optopt d1 = optopt d2) ->
  switch_option c ec d1 o = switch_option c ec d2 o.
Proof.
  intros Ha Hq. unfold switch_option, report_invalid_options.
  rewrite Ha.
  destruct (Ascii.eqb c "n"); [reflexivity|].
  destruct (Ascii.eqb c "p"); [reflexivity|].
  destruct (Ascii.eqb c "h"); [reflexivity|].
  destruct (Ascii.eqb c "?") eqn:E; [|reflexivity].
  apply Ascii.eqb_eq in E. now rewrite (Hq E).
Qed.

Lemma scan_same_cursor (n : nat) (ec : exit_status) (d1 d2 : getopt_data)
    (o : option options_t) :
  scan_measure d1 < n ->
  same_cursor d1 d2 ->
  let '(ctl1, ec1, d1', o1, out1) := scan ec d1 o in
  let '(ctl2, ec2, d2', o2, out2) := scan ec d2 o in
  ctl1 = ctl2 /\ ec1 = ec2 /\ o1 = o2 /\ out1 = out2 /\ same_cursor d1' d2'.
Proof.
  revert ec d1 d2 o.
  induction n as [|n IH]; intros ec d1 d2 o Hlt Hsame; [lia|].
  pose proof (getopt_same_cursor optstring d1 d2 eq_refl Hsame) as Hg.
  rewrite (scan_eq ec d1), (scan_eq ec d2).
  destruct (getopt optstring d1) as [[r1 e1] m1] eqn:E1.
  destruct (getopt optstring d2) as [[r2 e2] m2] eqn:E2.
  destruct Hg as (<- & <- & Hc & Ha & Hq).
  destruct r1 as [c|]; [|cbv beta iota; now auto].
  rewrite <- (switch_option_same c ec e1 e2 o Ha)
    by (intros ->; now apply Hq).
  destruct (switch_option c ec e1 o) as [[[[|] ec'] o'] out];
    [|cbv beta iota; now auto].
  apply getopt_measure in E1.
  specialize (IH ec' e1 e2 o' ltac:(lia) Hc).
  destruct (scan ec' e1 o') as [[[[ctl1 x1] y1] z1] out1].
  destruct (scan ec' e2 o') as [[[[ctl2 x2] y2] z2] out2].
  destruct IH as (-> & -> & -> & -> & Hc').
  now auto.
Qed.

(** Not C3 as stated: [getopt] keeps its place in the vector from one call of
    [process_options] to the next.  On [netcalc -h] the first call fails and
    prints the help menu; a second call on the same vector, with a record
    that is again all zero, finds nothing left to scan and succeeds. *)
Lemma second_invocation_differs :
  let first := run PERMUTE ["netcalc"; "-h"] in
  let second := process_options (getopt_after first) (Some options_zero) in
  options_after first = Some options_zero
  /\ returned first = E_FAILURE /\ printed first = print_help_menu
  /\ returned second = E_SUCCESS /\ printed second = []
  /\ returned first <> returned second.
Proof.
  vm_compute. repeat split. discriminate.
Qed.

(** C3, amended.  Two calls of [process_options] that start with [getopt] at
    the same place of the same vector and with the same record return the
    same result, leave the same record and print the same text, whatever an
    earlier call has left in [optarg] and [optopt]; they also leave [getopt]
    at the same place. *)
Theorem same_start_same_outcome (d1 d2 : getopt_data)
    (options_p : option options_t) :
  same_cursor d1 d2 ->
  let r1 := process_options (Some d1) options_p in
  let r2 := process_options (Some d2) options_p in
  returned r1 = returned r2
  /\ options_after r1 = options_after r2
  /\ printed r1 = printed r2
  /\ (forall e1 e2, getopt_after r1 = Some e1 -> getopt_after r2 = Some e2 ->
                    same_cursor e1 e2).
Proof.
  intros Hsame r1 r2. subst r1 r2. unfold process_options.
  assert (Hfin : forall ec e1 e2 o out,
             same_cursor e1 e2 ->
             returned (END ec (Some e1) o out) = returned (END ec (Some e2) o out)
             /\ options_after (END ec (Some e1) o out)
                = options_after (END ec (Some e2) o out)
             /\ printed (END ec (Some e1) o out)
                = printed (END ec (Some e2) o out)
             /\ (forall a b, getopt_after (END ec (Some e1) o out) = Some a ->
                             getopt_after (END ec (Some e2) o out) = Some b ->
                             same_cursor a b)).
  { intros ec e1 e2 o out Hc. do 3 (split; [reflexivity|]).
    simpl. intros a b H1 H2. inversion H1; inversion H2; subst. exact Hc. }
  destruct options_p as [o|]; [|now apply Hfin].
  assert (Hv : argv_vector d1 = argv_vector d2).
  { destruct Hsame as (_ & Hd & Hn & _ & Hr).
    unfold argv_vector. now rewrite Hd, Hn, Hr. }
  rewrite <- Hv.
  destruct (argv_vector d1) as [|a0 v]; [now apply Hfin|].
  pose proof (scan_same_cursor (S (scan_measure d1)) E_FAILURE d1 d2 (Some o)
                ltac:(lia) Hsame) as H.
  change (while_getopt (S (scan_measure d1)) E_FAILURE d1 (Some o))
    with (scan E_FAILURE d1 (Some o)).
  change (while_getopt (S (scan_measure d2)) E_FAILURE d2 (Some o))
    with (scan E_FAILURE d2 (Some o)).
  destruct (scan E_FAILURE d1 (Some o)) as [[[[ctl1 x1] e1] z1] out1].
  destruct (scan E_FAILURE d2 (Some o)) as [[[[ctl2 x2] e2] z2] out2].
  destruct H as (<- & <- & <- & <- & Hc).
  assert (He : report_extra_arguments (optind e1) (argc e1)
                 (Some (argv_vector e1))
               = report_extra_arguments (optind e2) (argc e2)
                   (Some (argv_vector e2))).
  { destruct Hc as (_ & Hd & Hn & _ & Hr).
    unfold optind, argc, argv_vector. now rewrite Hd, Hn, Hr. }
  rewrite <- He.
  destruct ctl1; [|now apply Hfin].
  destruct (report_extra_arguments _ _ _) as [[|] extra]; now apply Hfin.
Qed.

(** A second call on [netcalc -p 8080] after the caller has put the cursor
    back at [argv[1]]: [optarg] still holds what the first call left. *)
Lemma same_start_same_outcome_witness :
  let d1 := getopt_init PERMUTE ["netcalc"; "-p"; "8080"] in
  let d2 := {| ordering := PERMUTE; argv_done := ["netcalc"]; nonopts := [];
               nextchar := EmptyString; argv_rest := ["-p"; "8080"];
               optarg := Some "8080"; optopt := "x"%char |} in
  let r1 := process_options (Some d1) (Some options_zero) in
  let r2 := process_options (Some d2) (Some options_zero) in
  returned r1 = returned r2
  /\ options_after r1 = options_after r2
  /\ printed r1 = printed r2
  /\ (forall e1 e2, getopt_after r1 = Some e1 -> getopt_after r2 = Some e2 ->
                    same_cursor e1 e2).
Proof.
  intros d1 d2.
  apply (same_start_same_outcome d1 d2 (Some options_zero)).
  repeat split.
Defined.

(** ** The value of [-n] *)

Lemma str_to_int32_decimal (s : string) (v : Z) (num : number_t) :
  decimal_value s = Some v ->
  (INT32_MIN <= v <= INT32_MAX)%Z ->
  str_to_int32 s num = (E_SUCCESS, {| signed_num := v |}).
Proof.
  intros Hd [Hlo Hhi]. unfold str_to_int32. rewrite Hd.
  apply Z.leb_le in Hlo, Hhi. now rewrite Hlo, Hhi.
Qed.

(** Not C5 as stated: ["2147483648"] is a decimal numeral of an integer that
    is at least 2, and [-n 2147483648] fails, in the conversion; the record
    is left as it was. *)
Lemma thread_count_beyond_int32_fails :
  decimal_value "2147483648" = Some 2147483648%Z
  /\ (MIN_NUM_THREADS <= 2147483648)%Z
  /\ process_n_option (Some "2147483648") (Some options_zero)
     = (E_FAILURE, Some options_zero, [print_error msg_n_invalid_number]).
Proof.
  vm_compute. repeat split. discriminate.
Qed.

(** C5, amended.  For a decimal numeral [s] of an integer [v] that fits a
    signed 32-bit integer, given with [-n] when no thread count is set yet:
    if [v] is at least 2 the handler succeeds, sets [n_flag] and stores
    exactly [v], printing nothing; if [v] is below 2 it fails with the
    out-of-range message and leaves the record as it was. *)
Theorem process_n_option_decimal (s : string) (v : Z) (options : options_t) :
  decimal_value s = Some v ->
  (INT32_MIN <= v <= INT32_MAX)%Z ->
  n_flag options = false ->
  ((MIN_NUM_THREADS <= v)%Z ->
   process_n_option (Some s) (Some options)
   = (E_SUCCESS,
      Some {| n_flag := true; n_value := v;
              p_flag := p_flag options; p_value := p_value options |},
      []))
  /\
  ((v < MIN_NUM_THREADS)%Z ->
   process_n_option (Some s) (Some options)
   = (E_FAILURE, Some options, [print_error msg_n_out_of_range])).
Proof.
  intros Hd Hr Hflag. unfold process_n_option.
  rewrite Hflag, (str_to_int32_decimal _ _ _ Hd Hr). cbn [signed_num].
  split; intros Hv.
  - destruct (MIN_NUM_THREADS >? v)%Z eqn:E; [|reflexivity].
    apply Z.gtb_lt in E. lia.
  - destruct (MIN_NUM_THREADS >? v)%Z eqn:E; [reflexivity|].
    rewrite Z.gtb_ltb in E. apply Z.ltb_ge in E. lia.
Qed.

(** [-n 4] is accepted and [-n -5] is refused as out of range. *)
Lemma process_n_option_decimal_witness :
  process_n_option (Some "4") (Some options_zero)
  = (E_SUCCESS,
     Some {| n_flag := true; n_value := 4; p_flag := false; p_value := None |},
     [])
  /\ process_n_option (Some "-5") (Some options_zero)
     = (E_FAILURE, Some options_zero, [print_error msg_n_out_of_range]).
Proof.
  split.
  - apply (process_n_option_decimal "4" 4 options_zero);
      [reflexivity | vm_compute; split; discriminate | reflexivity
      | vm_compute; discriminate].
  - apply (process_n_option_decimal "-5" (-5) options_zero);
      [reflexivity | vm_compute; split; discriminate | reflexivity
      | reflexivity].
Defined.

(** ** The value of [-p] *)

(** Not C6 as stated: ["99999999999"] is a decimal numeral of an integer
    outside 1025..65535, and [-p 99999999999] fails in the conversion, with
    the message for a text that is not a number, not with the one for a port
    out of range. *)
Lemma port_beyond_int32_is_not_out_of_range :
  decimal_value "99999999999" = Some 99999999999%Z
  /\ (MAX_PORT_VALUE < 99999999999)%Z
  /\ process_p_option (Some "99999999999") (Some options_zero)
     = (E_FAILURE, Some options_zero, [print_error msg_p_invalid_number])
  /\ ~ In (print_error msg_p_out_of_range)
          (snd (process_p_option (Some "99999999999") (Some options_zero))).
Proof.
  vm_compute. repeat split. intros [H|[]]. discriminate.
Qed.

(** C6, amended.  For a decimal numeral [s] of an integer [v], given with
    [-p] when no port is set yet: if [v] lies in 1025..65535 and [s] has at
    most 5 digits, being a text of at most 5 characters, the handler
    succeeds, sets [p_flag] and stores the text [s] itself, printing nothing;
    if [v] lies outside 1025..65535 and fits a signed 32-bit integer it fails
    with the out-of-range message and leaves the record as it was.  Nothing
    is said here of longer texts. *)
Theorem process_p_option_decimal (s : string) (v : Z) (options : options_t) :
  decimal_value s = Some v ->
  p_flag options = false ->
  (String.length s <= 5 ->
   (MIN_PORT_VALUE <= v <= MAX_PORT_VALUE)%Z ->
   process_p_option (Some s) (Some options)
   = (E_SUCCESS,
      Some {| n_flag := n_flag options; n_value := n_value options;
              p_flag := true; p_value := Some s |},
      []))
  /\
  ((INT32_MIN <= v <= INT32_MAX)%Z ->
   (v < MIN_PORT_VALUE \/ MAX_PORT_VALUE < v)%Z ->
   process_p_option (Some s) (Some options)
   = (E_FAILURE, Some options, [print_error msg_p_out_of_range])).
Proof.
  intros Hd Hflag. unfold process_p_option. rewrite Hflag.
  split.
  - intros _ Hv.
    rewrite (str_to_int32_decimal _ _ _ Hd)
      by (unfold INT32_MIN, INT32_MAX, MIN_PORT_VALUE, MAX_PORT_VALUE in *;
          lia).
    cbn [signed_num].
    destruct (MAX_PORT_VALUE <? v)%Z eqn:E1;
      [apply Z.ltb_lt in E1; lia|].
    destruct (MIN_PORT_VALUE >? v)%Z eqn:E2;
      [apply Z.gtb_lt in E2; lia|].
    cbn [orb]. now rewrite port_length_check_false.
  - intros Hr Hv.
    rewrite (str_to_int32_decimal _ _ _ Hd Hr). cbn [signed_num].
    destruct Hv as [Hv|Hv].
    + apply Z.gtb_lt in Hv. rewrite Hv, orb_true_r. reflexivity.
    + apply Z.ltb_lt in Hv. rewrite Hv. reflexivity.
Qed.

(** [-p 8080] is accepted as it is written; [-p 80] and [-p 70000] are
    refused as out of range. *)
Lemma process_p_option_decimal_witness :
  process_p_option (Some "8080") (Some options_zero)
  = (E_SUCCESS,
     Some {| n_flag := false; n_value := 0;
             p_flag := true; p_value := Some "8080" |},
     [])
  /\ process_p_option (Some "80") (Some options_zero)
     = (E_FAILURE, Some options_zero, [print_error msg_p_out_of_range])
  /\ process_p_option (Some "70000") (Some options_zero)
     = (E_FAILURE, Some options_zero, [print_error msg_p_out_of_range]).
Proof.
  split; [|split].
  - apply (process_p_option_decimal "8080" 8080 options_zero);
      [reflexivity | reflexivity | simpl; lia
      | vm_compute; split; discriminate].
  - apply (process_p_option_decimal "80" 80 options_zero);
      [reflexivity | reflexivity | vm_compute; split; discriminate
      | left; reflexivity].
  - apply (process_p_option_decimal "70000" 70000 options_zero);
      [reflexivity | reflexivity | vm_compute; split; discriminate
      | right; reflexivity].
Defined.

(** ** The length check of [-p] *)

(** C10.  [strnlen (s, MAX_PORT_SIZE)] is at most [MAX_PORT_SIZE], so the
    test [MAX_PORT_SIZE < optarg_length] is false for every text, and
    [process_p_option] never prints the message of its length check,
    whatever it is given. *)
Theorem port_length_check_unreachable :
  (forall s, strnlen s MAX_PORT_SIZE <= MAX_PORT_SIZE)
  /\ (forall s, (MAX_PORT_SIZE <? strnlen s MAX_PORT_SIZE)%nat = false)
  /\ (forall optarg options_p,
         ~ In (print_error msg_p_too_long)
              (snd (process_p_option optarg options_p))).
Proof.
  split; [intros s; apply strnlen_le|].
  split; [exact port_length_check_false|].
  intros optarg options_p. unfold process_p_option.
  destruct optarg as [arg|], options_p as [options|];
    try (intros [H|[]]; discriminate).
  destruct (p_flag options); [intros [H|[]]; discriminate|].
  destruct (str_to_int32 arg _) as [[|] num];
    [|intros [H|[]]; discriminate].
  destruct ((MAX_PORT_VALUE <? signed_num num)%Z
            || (MIN_PORT_VALUE >? signed_num num)%Z);
    [intros [H|[]]; discriminate|].
  rewrite port_length_check_false. intros [].
Qed.

(** ** Two defects *)

(** C1 (the code does not do this).  In [netcalc -n 4 -h] the handler of
    [-n 4] has set [exit_code] to [E_SUCCESS]; [case 'h'] jumps to [END]
    without touching it, so the call returns [E_SUCCESS] and the help menu is
    not printed. *)
Theorem help_after_valid_option_returns_success (ord : ordering_t) :
  let r := run ord ["netcalc"; "-n"; "4"; "-h"] in
  returned r = E_SUCCESS
  /\ printed r = []
  /\ options_after r = Some {| n_flag := true; n_value := 4;
                               p_flag := false; p_value := None |}.
Proof.
  destruct ord; vm_compute; repeat split.
Qed.

(** With [-h] in front of every other option the call does fail and print
    the menu. *)
Lemma help_first_prints_menu (ord : ordering_t) :
  let r := run ord ["netcalc"; "-h"; "-n"; "4"] in
  returned r = E_FAILURE /\ printed r = print_help_menu
  /\ options_after r = Some options_zero.
Proof.
  destruct ord; vm_compute; repeat split.
Qed.

(** C2 (the code does not do this).  [-p 0001025] gives a text of seven
    characters whose value, 1025, is in range: the length check does not
    fire, the call succeeds and the seven characters are stored.  The same
    holds for the two texts of six characters that the specification names,
    [001025] and [+01025]. *)
Theorem long_port_text_is_accepted (ord : ordering_t) :
  let r := run ord ["netcalc"; "-p"; "0001025"] in
  String.length "0001025" = 7
  /\ returned r = E_SUCCESS
  /\ printed r = []
  /\ options_after r = Some {| n_flag := false; n_value := 0;
                               p_flag := true; p_value := Some "0001025" |}
  /\ returned (run ord ["netcalc"; "-p"; "001025"]) = E_SUCCESS
  /\ returned (run ord ["netcalc"; "-p"; "+01025"]) = E_SUCCESS.
Proof.
  destruct ord; vm_compute; repeat split.
Qed.

(* ------------------------------------------------------------------------- *)
(** * Further properties of the code *)

(** ** [strnlen] *)

(** [strnlen (s, maxlen)] is the smaller of the length of [s] and [maxlen]:
    the count stops at the bound or at the end of the text, whichever comes
    first. *)
Theorem strnlen_min (s : string) (maxlen : nat) :
  strnlen s maxlen = Nat.min (String.length s) maxlen.
Proof.
  revert s. induction maxlen as [|m IH]; intros s.
  - simpl. now rewrite Nat.min_0_r.
  - destruct s as [|c r]; [reflexivity|].
    cbn [strnlen String.length]. now rewrite IH, Nat.succ_min_distr.
Qed.

(** ** What a handler stores *)

Lemma process_n_option_success_inv (optarg : option string)
    (options_p options_p' : option options_t) (out : list event) :
  process_n_option optarg options_p = (E_SUCCESS, options_p', out) ->
  exists arg o num,
    optarg = Some arg /\ options_p = Some o /\ n_flag o = false
    /\ str_to_int32 arg {| signed_num := 0 |} = (E_SUCCESS, num)
    /\ (MIN_NUM_THREADS <= signed_num num)%Z
    /\ options_p' = Some {| n_flag := true; n_value := signed_num num;
                            p_flag := p_flag o; p_value := p_value o |}
    /\ out = [].
Proof.
  unfold process_n_option.
  destruct optarg as [arg|], options_p as [o|];
    try (now intros H; inversion H).
  destruct (n_flag o) eqn:Ef; [now intros H; inversion H|].
  destruct (str_to_int32 arg _) as [[|] num] eqn:Es;
    [|now intros H; inversion H].
  destruct (MIN_NUM_THREADS >? signed_num num)%Z eqn:Ec;
    intros H; inversion H; subst.
  exists arg, o, num. repeat split; try assumption.
  rewrite Z.gtb_ltb in Ec. now apply Z.ltb_ge in Ec.
Qed.

Lemma process_p_option_success_inv (optarg : option string)
    (options_p options_p' : option options_t) (out : list event) :
  process_p_option optarg options_p = (E_SUCCESS, options_p', out) ->
  exists arg o num,
    optarg = Some arg /\ options_p = Some o /\ p_flag o = false
    /\ str_to_int32 arg {| signed_num := 0 |} = (E_SUCCESS, num)
    /\ (MIN_PORT_VALUE <= signed_num num <= MAX_PORT_VALUE)%Z
    /\ options_p' = Some {| n_flag := n_flag o; n_value := n_value o;
                            p_flag := true; p_value := Some arg |}
    /\ out = [].
Proof.
  unfold process_p_option.
  destruct optarg as [arg|], options_p as [o|];
    try (now intros H; inversion H).
  destruct (p_flag o) eqn:Ef; [now intros H; inversion H|].
  destruct (str_to_int32 arg _) as [[|] num] eqn:Es;
    [|now intros H; inversion H].
  destruct (MAX_PORT_VALUE <? signed_num num)%Z eqn:E1;
    [now intros H; inversion H|].
  destruct (MIN_PORT_VALUE >? signed_num num)%Z eqn:E2;
    [now intros H; inversion H|].
  cbn [orb]. rewrite port_length_check_false.
  intros H; inversion H; subst.
  exists arg, o, num. repeat split; try assumption.
  - rewrite Z.gtb_ltb in E2. now apply Z.ltb_ge in E2.
  - now apply Z.ltb_ge in E1.
Qed.

(** An iteration after which the loop goes on has handled [-n] or [-p] with
    success. *)
Lemma iteration_inv (ec : exit_status) (d : getopt_data)
    (op : option options_t) (ec' : exit_status) (d' : getopt_data)
    (op' : option options_t) :
  iteration (ec, d, op) (ec', d', op') ->
  ec' = E_SUCCESS
  /\ ((exists out, process_n_option (optarg d') op = (E_SUCCESS, op', out))
      \/ (exists out, process_p_option (optarg d') op = (E_SUCCESS, op', out))).
Proof.
  intros H. inversion H as [? ? ? c ? msg ? ? out Hg Hs]; subst.
  destruct (switch_option_fall_through _ _ _ _ _ _ _ Hs) as (-> & -> & _).
  split; [reflexivity|].
  revert Hs. unfold switch_option.
  destruct (Ascii.eqb c "n").
  - destruct (process_n_option (optarg d') op) as [[[|] o1] out1];
      intros Hs; inversion Hs; subst. left. now eexists.
  - destruct (Ascii.eqb c "p").
    + destruct (process_p_option (optarg d') op) as [[[|] o1] out1];
        intros Hs; inversion Hs; subst. right. now eexists.
    + destruct (Ascii.eqb c "h"); [discriminate|].
      destruct (Ascii.eqb c "?"); discriminate.
Qed.

(** Each handler changes nothing but its own flag and value, whether it
    succeeds or fails; a handler that fails changes nothing at all. *)
Theorem handlers_touch_only_their_option (optarg : option string)
    (o : options_t) (ec : exit_status) (options_p' : option options_t)
    (out : list event) :
  (process_n_option optarg (Some o) = (ec, options_p', out) ->
   exists o', options_p' = Some o'
              /\ p_flag o' = p_flag o /\ p_value o' = p_value o
              /\ (ec = E_FAILURE -> o' = o))
  /\
  (process_p_option optarg (Some o) = (ec, options_p', out) ->
   exists o', options_p' = Some o'
              /\ n_flag o' = n_flag o /\ n_value o' = n_value o
              /\ (ec = E_FAILURE -> o' = o)).
Proof.
  split; intros H; destruct ec.
  - apply process_n_option_success_inv in H.
    destruct H as (arg & o1 & num & _ & Ho & _ & _ & _ & -> & _).
    inversion Ho; subst. eexists. repeat split. discriminate.
  - apply process_n_option_failure in H. subst. exists o. now repeat split.
  - apply process_p_option_success_inv in H.
    destruct H as (arg & o1 & num & _ & Ho & _ & _ & _ & -> & _).
    inversion Ho; subst. eexists. repeat split. discriminate.
  - apply process_p_option_failure in H. subst. exists o. now repeat split.
Qed.

Lemma handlers_touch_only_their_option_witness :
  exists o', Some {| n_flag := true; n_value := 4;
                     p_flag := true; p_value := Some "8080" |} = Some o'
             /\ p_flag o' = true /\ p_value o' = Some "8080"
             /\ (E_SUCCESS = E_FAILURE ->
                 o' = {| n_flag := false; n_value := 0;
                         p_flag := true; p_value := Some "8080" |}).
Proof.
  apply (proj1 (handlers_touch_only_their_option (Some "4")
                  {| n_flag := false; n_value := 0;
                     p_flag := true; p_value := Some "8080" |}
                  E_SUCCESS _ [])).
  reflexivity.
Defined.

(** The two handlers commute: when [-n] and [-p] are each accepted on a
    record, handling them in either order is accepted too and gives the same
    record. *)
Theorem handlers_commute (a b : option string) (o : options_t)
    (o1 o2 : option options_t) (out1 out2 : list event) :
  process_n_option a (Some o) = (E_SUCCESS, o1, out1) ->
  process_p_option b (Some o) = (E_SUCCESS, o2, out2) ->
  exists o3,
    process_p_option b o1 = (E_SUCCESS, Some o3, [])
    /\ process_n_option a o2 = (E_SUCCESS, Some o3, []).
Proof.
  intros Hn Hp.
  apply process_n_option_success_inv in Hn.
  destruct Hn as (s & o' & num & -> & Ho & Hf & Hs & Hv & -> & _).
  inversion Ho; subst o'.
  apply process_p_option_success_inv in Hp.
  destruct Hp as (t & o' & num' & -> & Ho' & Hf' & Hs' & (Hlo & Hhi) & -> & _).
  inversion Ho'; subst o'.
  exists {| n_flag := true; n_value := signed_num num;
            p_flag := true; p_value := Some t |}.
  unfold process_p_option, process_n_option.
  cbn [n_flag n_value p_flag p_value]. rewrite Hf, Hf', Hs, Hs'.
  rewrite port_length_check_false.
  apply Z.ltb_ge in Hhi. rewrite Hhi.
  assert (E2 : (MIN_PORT_VALUE >? signed_num num')%Z = false)
    by (rewrite Z.gtb_ltb; now apply Z.ltb_ge).
  assert (E3 : (MIN_NUM_THREADS >? signed_num num)%Z = false)
    by (rewrite Z.gtb_ltb; now apply Z.ltb_ge).
  rewrite E2, E3. split; reflexivity.
Qed.

Lemma handlers_commute_witness :
  exists o3,
    process_p_option (Some "8080")
      (Some {| n_flag := true; n_value := 4;
               p_flag := false; p_value := None |})
    = (E_SUCCESS, Some o3, [])
    /\ process_n_option (Some "4")
         (Some {| n_flag := false; n_value := 0;
                  p_flag := true; p_value := Some "8080" |})
       = (E_SUCCESS, Some o3, []).
Proof.
  apply (handlers_commute (Some "4") (Some "8080") options_zero _ _ [] []);
    reflexivity.
Defined.

(** A handler that has succeeded refuses every later value: called again on
    the record it left, with whatever text, it fails with the message for a
    repeated option and leaves the record as it is. *)
Theorem handler_accepts_only_once (a : option string)
    (options_p options_p' : option options_t) (out : list event)
    (b : string) :
  (process_n_option a options_p = (E_SUCCESS, options_p', out) ->
   process_n_option (Some b) options_p'
   = (E_FAILURE, options_p', [print_error msg_n_duplicate]))
  /\
  (process_p_option a options_p = (E_SUCCESS, options_p', out) ->
   process_p_option (Some b) options_p'
   = (E_FAILURE, options_p', [print_error msg_p_duplicate])).
Proof.
  split; intros H.
  - apply process_n_option_success_inv in H.
    now destruct H as (s & o & num & _ & _ & _ & _ & _ & -> & _).
  - apply process_p_option_success_inv in H.
    now destruct H as (s & o & num & _ & _ & _ & _ & _ & -> & _).
Qed.

Lemma handler_accepts_only_once_witness :
  process_n_option (Some "8")
    (Some {| n_flag := true; n_value := 4; p_flag := false; p_value := None |})
  = (E_FAILURE,
     Some {| n_flag := true; n_value := 4; p_flag := false; p_value := None |},
     [print_error msg_n_duplicate]).
Proof.
  apply (proj1 (handler_accepts_only_once (Some "4") (Some options_zero)
                  _ [] "8")).
  reflexivity.
Defined.

(** ** The record along a run *)

Lemma options_valid_iff (o : options_t) :
  options_valid o = true <->
  (n_flag o = true -> (MIN_NUM_THREADS <= n_value o)%Z)
  /\ (p_flag o = true ->
      exists s num, p_value o = Some s
                    /\ str_to_int32 s {| signed_num := 0 |} = (E_SUCCESS, num)
                    /\ (MIN_PORT_VALUE <= signed_num num <= MAX_PORT_VALUE)%Z).
Proof.
  unfold options_valid. rewrite andb_true_iff. split.
  - intros [Hn Hp]. split.
    + intros E. rewrite E in Hn. now apply Z.leb_le.
    + intros E. rewrite E in Hp.
      destruct (p_value o) as [s|]; [|discriminate].
      destruct (str_to_int32 s _) as [[|] num] eqn:Es; [|discriminate].
      apply andb_true_iff in Hp. destruct Hp as [H1 H2].
      exists s, num. split; [reflexivity|]. split; [exact Es|].
      split; now apply Z.leb_le.
  - intros [Hn Hp]. split.
    + destruct (n_flag o); [|reflexivity]. now apply Z.leb_le, Hn.
    + destruct (p_flag o); [|reflexivity].
      destruct (Hp eq_refl) as (s & num & -> & -> & H1 & H2).
      apply andb_true_iff. split; now apply Z.leb_le.
Qed.

Lemma iteration_record (ec : exit_status) (d : getopt_data) (o : options_t)
    (ec' : exit_status) (d' : getopt_data) (op' : option options_t) :
  iteration (ec, d, Some o) (ec', d', op') ->
  exists o', op' = Some o'
    /\ (options_valid o = true -> options_valid o' = true)
    /\ (n_flag o = true -> n_flag o' = true /\ n_value o' = n_value o)
    /\ (p_flag o = true -> p_flag o' = true /\ p_value o' = p_value o).
Proof.
  intros H. apply iteration_inv in H. destruct H as (_ & [[out H]|[out H]]).
  - apply process_n_option_success_inv in H.
    destruct H as (s & o1 & num & _ & Ho & Hf & Hs & Hv & -> & _).
    inversion Ho; subst o1. eexists. split; [reflexivity|].
    cbn [n_flag n_value p_flag p_value]. repeat split; try congruence.
    rewrite !options_valid_iff. cbn [n_flag n_value p_flag p_value].
    intros [_ Hp]. split; [now intros _|exact Hp].
  - apply process_p_option_success_inv in H.
    destruct H as (s & o1 & num & _ & Ho & Hf & Hs & Hv & -> & _).
    inversion Ho; subst o1. eexists. split; [reflexivity|].
    cbn [n_flag n_value p_flag p_value]. repeat split; try congruence.
    rewrite !options_valid_iff. cbn [n_flag n_value p_flag p_value].
    intros [Hn _]. split; [exact Hn|]. intros _. now exists s, num.
Qed.

Lemma reaches_record (s s' : loop_state) :
  reaches s s' ->
  forall o, snd s = Some o ->
  exists o', snd s' = Some o'
    /\ (options_valid o = true -> options_valid o' = true)
    /\ (n_flag o = true -> n_flag o' = true /\ n_value o' = n_value o)
    /\ (p_flag o = true -> p_flag o' = true /\ p_value o' = p_value o).
Proof.
  induction 1 as [s|[[e1 d1] op1] [[e2 d2] op2] s3 Hi Hr IH]; intros o Ho.
  - exists o. now repeat split.
  - simpl in Ho. subst op1.
    destruct (iteration_record _ _ _ _ _ _ Hi) as (o2 & -> & Hv & Hn & Hp).
    destruct (IH o2 eq_refl) as (o3 & H3 & Hv' & Hn' & Hp').
    exists o3. split; [exact H3|]. split; [now auto|]. split.
    + intros E. destruct (Hn E) as [E1 E2].
      destruct (Hn' E1) as [E3 E4]. split; congruence.
    + intros E. destruct (Hp E) as [E1 E2].
      destruct (Hp' E1) as [E3 E4]. split; congruence.
Qed.

(** The record [process_options] leaves is the record of a state the loop
    reaches. *)
Lemma process_options_record (d0 : getopt_data) (o0 : options_t) :
  exists s, reaches (E_FAILURE, d0, Some o0) s
            /\ options_after (process_options (Some d0) (Some o0)) = snd s.
Proof.
  destruct (argv_vector d0) as [|a0 v] eqn:Ev.
  - exists (E_FAILURE, d0, Some o0). split; [constructor|].
    unfold process_options. now rewrite Ev.
  - assert (Hv : argv_vector d0 <> []) by (rewrite Ev; discriminate).
    destruct (scan_inv E_FAILURE d0 (Some o0))
      as (ec & d & o & Hr
          & [(d' & Hg & _) | (c & d' & msg & ec' & out & Hg & Hs & _)]).
    + exists (ec, d, o). split; [exact Hr|].
      rewrite (process_options_end _ _ Hv _ _ _ _ _ Hr Hg).
      now destruct (report_extra_arguments _ _ _) as [[|] extra].
    + exists (ec, d, o). split; [exact Hr|].
      now rewrite (process_options_goto _ _ Hv _ _ _ _ _ _ _ _ _ Hr Hg Hs).
Qed.

(** Whatever the vector and whatever the result, a record that is valid when
    [process_options] is called is valid when it returns: a thread count that
    is set is at least 2, and a port that is set is a text that converts to a
    number from 1025 to 65535. *)
Theorem process_options_keeps_record_valid (d0 : getopt_data)
    (o0 : options_t) :
  options_valid o0 = true ->
  exists o', options_after (process_options (Some d0) (Some o0)) = Some o'
             /\ options_valid o' = true.
Proof.
  intros Hv.
  destruct (process_options_record d0 o0) as (s & Hr & ->).
  destruct (reaches_record _ _ Hr o0 eq_refl) as (o' & Ho & Hv' & _).
  exists o'. split; [exact Ho|now apply Hv'].
Qed.

Lemma process_options_keeps_record_valid_witness :
  exists o',
    options_after (run PERMUTE ["netcalc"; "-p"; "8080"; "-n"; "1"]) = Some o'
    /\ options_valid o' = true.
Proof.
  apply (process_options_keeps_record_valid
           (getopt_init PERMUTE ["netcalc"; "-p"; "8080"; "-n"; "1"])
           options_zero).
  reflexivity.
Defined.

(** [process_options] never overwrites an option that is set in the record it
    is given: the flag stays set and the value stays what it was, whatever
    the vector holds. *)
Theorem set_options_are_never_overwritten (d0 : getopt_data)
    (o0 : options_t) :
  exists o', options_after (process_options (Some d0) (Some o0)) = Some o'
    /\ (n_flag o0 = true -> n_flag o' = true /\ n_value o' = n_value o0)
    /\ (p_flag o0 = true -> p_flag o' = true /\ p_value o' = p_value o0).
Proof.
  destruct (process_options_record d0 o0) as (s & Hr & ->).
  destruct (reaches_record _ _ Hr o0 eq_refl) as (o' & Ho & _ & Hn & Hp).
  now exists o'.
Qed.

Lemma set_options_are_never_overwritten_witness :
  let o0 := {| n_flag := true; n_value := 4;
               p_flag := false; p_value := None |} in
  exists o',
    options_after
      (process_options (Some (getopt_init PERMUTE ["netcalc"; "-n"; "8"]))
         (Some o0)) = Some o'
    /\ n_flag o' = true /\ n_value o' = 4%Z.
Proof.
  intros o0.
  destruct (set_options_are_never_overwritten
              (getopt_init PERMUTE ["netcalc"; "-n"; "8"]) o0)
    as (o' & Ho & Hn & _).
  exists o'. split; [exact Ho|]. exact (Hn eq_refl).
Defined.

(** ** What is printed, and when *)

Lemma process_n_option_quiet (optarg : option string)
    (options_p : option options_t) :
  Forall (fun e => is_printf e = false)
    (snd (process_n_option optarg options_p)).
Proof.
  unfold process_n_option.
  destruct optarg as [arg|], options_p as [o|];
    try (repeat constructor).
  destruct (n_flag o); [repeat constructor|].
  destruct (str_to_int32 arg _) as [[|] num]; [|repeat constructor].
  destruct (MIN_NUM_THREADS >? signed_num num)%Z; repeat constructor.
Qed.

Lemma process_p_option_quiet (optarg : option string)
    (options_p : option options_t) :
  Forall (fun e => is_printf e = false)
    (snd (process_p_option optarg options_p)).
Proof.
  unfold process_p_option.
  destruct optarg as [arg|], options_p as [o|];
    try (repeat constructor).
  destruct (p_flag o); [repeat constructor|].
  destruct (str_to_int32 arg _) as [[|] num]; [|repeat constructor].
  destruct ((MAX_PORT_VALUE <? signed_num num)%Z
            || (MIN_PORT_VALUE >? signed_num num)%Z); [repeat constructor|].
  destruct (MAX_PORT_SIZE <? strnlen arg MAX_PORT_SIZE)%nat;
    repeat constructor.
Qed.

Lemma switch_option_quiet (c : ascii) (ec : exit_status) (d : getopt_data)
    (o : option options_t) :
  Forall (fun e => is_printf e = false) (snd (switch_option c ec d o)).
Proof.
  unfold switch_option, report_invalid_options.
  destruct (Ascii.eqb c "n").
  - pose proof (process_n_option_quiet (optarg d) o) as H.
    destruct (process_n_option (optarg d) o) as [[[|] o1] out1];
      cbn [snd] in *; [exact H|].
    apply Forall_app. split; [exact H|repeat constructor].
  - destruct (Ascii.eqb c "p").
    + pose proof (process_p_option_quiet (optarg d) o) as H.
      destruct (process_p_option (optarg d) o) as [[[|] o1] out1];
        cbn [snd] in *; [exact H|].
      apply Forall_app. split; [exact H|repeat constructor].
    + destruct (Ascii.eqb c "h"); [constructor|].
      destruct (Ascii.eqb c "?"); [|repeat constructor].
      destruct (Ascii.eqb (optopt d) "n" || Ascii.eqb (optopt d) "p");
        repeat constructor.
Qed.

Lemma short_option_messages (os : string) (c : ascii) (r : string)
    (d : getopt_data) :
  Forall (fun e => is_printf e = false) (snd (short_option os c r d)).
Proof.
  unfold short_option.
  destruct (Ascii.eqb c ":" || Ascii.eqb c ";"); [repeat constructor|].
  destruct (optstring_lookup c os) as [[| |]|]; try (repeat constructor).
  destruct r; [destruct (argv_rest d)|]; repeat constructor.
Qed.

Lemma getopt_messages (os : string) (d : getopt_data) :
  Forall (fun e => is_printf e = false) (snd (getopt os d)).
Proof.
  unfold getopt.
  destruct (nextchar d) as [|c0 r0]; [|apply short_option_messages].
  destruct (match ordering d with
            | PERMUTE => skip_nonoptions (argv_rest d)
            | REQUIRE_ORDER => ([], argv_rest d)
            end) as [skipped rest].
  destruct rest as [|a rest']; [constructor|].
  destruct (String.eqb a "--"); [constructor|].
  destruct a as [|c1 [|c2 r]]; try constructor.
  destruct (Ascii.eqb c1 "-"); [apply short_option_messages|constructor].
Qed.

Lemma report_extra_arguments_quiet (i n : nat) (v : option (list string)) :
  Forall (fun e => is_printf e = false)
    (snd (report_extra_arguments i n v))
  /\ (fst (report_extra_arguments i n v) = E_SUCCESS ->
      snd (report_extra_arguments i n v) = []).
Proof.
  unfold report_extra_arguments.
  destruct v as [[|a v]|]; try (split; [repeat constructor|discriminate]).
  destruct (i <? n)%nat; [|split; [constructor|reflexivity]].
  split; [|discriminate]. cbn [snd].
  constructor; [reflexivity|]. apply Forall_app. split.
  - apply Forall_forall. intros e He. apply in_map_iff in He.
    now destruct He as (x & <- & _).
  - repeat constructor.
Qed.

(** The only jump to [END] with [exit_code] on [E_SUCCESS] is the one of
    [case 'h'], taken after an option was handled with success. *)
Lemma switch_option_goto_success (c : ascii) (ec : exit_status)
    (d : getopt_data) (o o' : option options_t) (out : list event) :
  switch_option c ec d o = (goto_END, E_SUCCESS, o', out) ->
  c = "h"%char /\ ec = E_SUCCESS /\ out = [].
Proof.
  unfold switch_option.
  destruct (Ascii.eqb c "n");
    [destruct (process_n_option (optarg d) o) as [[[|] o1] out1];
     discriminate|].
  destruct (Ascii.eqb c "p");
    [destruct (process_p_option (optarg d) o) as [[[|] o1] out1];
     discriminate|].
  destruct (Ascii.eqb c "h") eqn:Eh.
  - apply Ascii.eqb_eq in Eh. intros H; inversion H; subst. now repeat split.
  - destruct (Ascii.eqb c "?"); discriminate.
Qed.

(** Every call ends at [END], with diagnostics that hold no [printf], and
    with none at all when [exit_code] is [E_SUCCESS]. *)
Lemma process_options_at_END (argv : option getopt_data)
    (options_p : option options_t) :
  exists ec a o out,
    process_options argv options_p = END ec a o out
    /\ Forall (fun e => is_printf e = false) out
    /\ (ec = E_SUCCESS -> out = []).
Proof.
  assert (Hnull : forall a o,
             exists ec a' o' out,
               END E_FAILURE a o
                 [print_error "process_options(): NULL argument passed."]
               = END ec a' o' out
               /\ Forall (fun e => is_printf e = false) out
               /\ (ec = E_SUCCESS -> out = [])).
  { intros a o. do 4 eexists. split; [reflexivity|].
    split; [repeat constructor|discriminate]. }
  unfold process_options.
  destruct argv as [d0|], options_p as [o0|]; try apply Hnull.
  destruct (argv_vector d0) as [|a0 v]; [apply Hnull|].
  change (while_getopt (S (scan_measure d0)) E_FAILURE d0 (Some o0))
    with (scan E_FAILURE d0 (Some o0)).
  destruct (scan_inv E_FAILURE d0 (Some o0))
    as (ec & d & o & Hr
        & [(d' & Hg & ->) | (c & d' & msg & ec' & out & Hg & Hs & ->)]).
  - pose proof (report_extra_arguments_quiet (optind d') (argc d')
                  (Some (argv_vector d'))) as [Hq Hs].
    destruct (report_extra_arguments _ _ _) as [[|] extra]; cbn [fst snd] in *.
    + do 4 eexists. split; [reflexivity|]. rewrite (Hs eq_refl).
      split; [constructor|reflexivity].
    + do 4 eexists. split; [reflexivity|]. split; [|discriminate].
      cbn [app]. apply Forall_app. split; [exact Hq|repeat constructor].
  - do 4 eexists. split; [reflexivity|]. split.
    + apply Forall_app. split.
      * pose proof (getopt_messages optstring d) as H. now rewrite Hg in H.
      * pose proof (switch_option_quiet c ec d' o) as H. now rewrite Hs in H.
    + intros ->.
      destruct (switch_option_goto_success _ _ _ _ _ _ Hs) as (-> & _ & ->).
      now rewrite (getopt_quiet _ _ _ _ _ Hg).
Qed.

(** A call that returns [E_SUCCESS] has printed nothing, whatever it was
    given. *)
Theorem success_prints_nothing (argv : option getopt_data)
    (options_p : option options_t) :
  returned (process_options argv options_p) = E_SUCCESS ->
  printed (process_options argv options_p) = [].
Proof.
  destruct (process_options_at_END argv options_p)
    as (ec & a & o & out & -> & _ & Hs).
  cbn [END returned printed]. intros ->. now rewrite (Hs eq_refl).
Qed.

Lemma success_prints_nothing_witness :
  printed (run PERMUTE ["netcalc"; "-p"; "8080"; "-n"; "8"]) = [].
Proof.
  apply (success_prints_nothing
           (Some (getopt_init PERMUTE ["netcalc"; "-p"; "8080"; "-n"; "8"]))
           (Some options_zero)).
  reflexivity.
Defined.

(** A call that returns [E_FAILURE], for whatever reason ([NULL] arguments
    included), prints its diagnostics, none of them with [printf], and then
    the help menu as the last thing: the standard output receives the help
    menu and nothing else. *)
Theorem failure_prints_help_menu_last (argv : option getopt_data)
    (options_p : option options_t) :
  returned (process_options argv options_p) = E_FAILURE ->
  filter is_printf (printed (process_options argv options_p))
  = print_help_menu
  /\ exists diag,
       printed (process_options argv options_p) = diag ++ print_help_menu
       /\ Forall (fun e => is_printf e = false) diag.
Proof.
  destruct (process_options_at_END argv options_p)
    as (ec & a & o & out & -> & Hq & _).
  cbn [END returned printed]. intros ->. split.
  - rewrite filter_app.
    assert (Hn : filter is_printf out = []).
    { clear -Hq. induction Hq as [|e l He _ IH]; [reflexivity|].
      simpl. now rewrite He. }
    now rewrite Hn.
  - now exists out.
Qed.

Lemma failure_prints_help_menu_last_witness :
  filter is_printf (printed (run PERMUTE ["netcalc"; "-n"; "abc"]))
  = print_help_menu
  /\ exists diag,
       printed (run PERMUTE ["netcalc"; "-n"; "abc"])
       = diag ++ print_help_menu
       /\ Forall (fun e => is_printf e = false) diag.
Proof.
  apply (failure_prints_help_menu_last
           (Some (getopt_init PERMUTE ["netcalc"; "-n"; "abc"]))
           (Some options_zero)).
  reflexivity.
Defined.

(** ** How a call can succeed *)

Section Outcome.

Variable d0 : getopt_data.
Variable o0 : options_t.
Hypothesis argv0 : argv_vector d0 <> [].

Let start : loop_state := (E_FAILURE, d0, Some o0).

Lemma argc_after_scan (ec : exit_status) (d : getopt_data)
    (o : option options_t) (res : option ascii) (d' : getopt_data)
    (msg : list event) :
  reaches start (ec, d, o) -> getopt optstring d = (res, d', msg) ->
  0 < argc d'.
Proof.
  intros Hr Hg. rewrite (getopt_argc _ _ _ _ _ Hg).
  apply reaches_argc in Hr. simpl in Hr. rewrite Hr.
  apply argc_nonempty, argv0.
Qed.

(** When the scan has run to its end and no element of the vector is left,
    [process_options] returns [E_SUCCESS], prints nothing, and hands back the
    record as the options have built it. *)
Theorem complete_scan_succeeds (ec : exit_status) (d : getopt_data)
    (o : option options_t) (d' : getopt_data) (msg : list event) :
  reaches start (ec, d, o) ->
  getopt optstring d = (None, d', msg) ->
  argc d' <= optind d' ->
  let r := process_options (Some d0) (Some o0) in
  returned r = E_SUCCESS /\ printed r = [] /\ options_after r = o
  /\ getopt_after r = Some d'.
Proof.
  intros Hr Hg Hle r. subst r.
  rewrite (process_options_end _ _ argv0 _ _ _ _ _ Hr Hg).
  rewrite report_extra_arguments_after_scan
    by (eapply argc_after_scan; eassumption).
  apply Nat.ltb_ge in Hle. rewrite Hle. repeat split.
Qed.

(** What [-h] gives depends on what came before it.  When the scan comes to
    [-h], the call returns the value [exit_code] has at that moment:
    [E_FAILURE], with the help menu, exactly when no option has been handled
    before; [E_SUCCESS], with nothing printed, after any option handled with
    success.  The record is the one the loop had. *)
Theorem help_returns_current_exit_code (ec : exit_status) (d : getopt_data)
    (o : option options_t) (d' : getopt_data) (msg : list event) :
  reaches start (ec, d, o) ->
  getopt optstring d = (Some "h"%char, d', msg) ->
  let r := process_options (Some d0) (Some o0) in
  returned r = ec
  /\ options_after r = o
  /\ printed r = match ec with
                 | E_FAILURE => print_help_menu
                 | E_SUCCESS => []
                 end
  /\ (ec = E_FAILURE <-> (ec, d, o) = start).
Proof.
  intros Hr Hg r. subst r.
  rewrite (getopt_quiet _ _ _ _ _ Hg) in Hg by discriminate.
  rewrite (process_options_goto _ _ argv0 ec d o "h" d' [] ec o [] Hr Hg)
    by reflexivity.
  repeat split.
  - intros ->. destruct (reaches_exit_code _ _ Hr) as [E|E];
      [exact E|discriminate].
  - intros E. now inversion E.
Qed.

(** There are two ways, and no other, in which [process_options] returns
    [E_SUCCESS]: the scan has run to its end with no element left, or it has
    come to [-h] after at least one option was handled with success.  Either
    way the record is the one the loop had built. *)
Theorem success_has_two_causes :
  returned (process_options (Some d0) (Some o0)) = E_SUCCESS ->
  exists ec d o d',
    reaches start (ec, d, o)
    /\ options_after (process_options (Some d0) (Some o0)) = o
    /\ getopt_after (process_options (Some d0) (Some o0)) = Some d'
    /\ ((getopt optstring d = (None, d', []) /\ argc d' <= optind d')
        \/
        (getopt optstring d = (Some "h"%char, d', [])
         /\ ec = E_SUCCESS
         /\ exists s1, iteration start s1 /\ reaches s1 (ec, d, o))).
Proof.
  intros Hs.
  destruct (scan_inv E_FAILURE d0 (Some o0))
    as (ec & d & o & Hr
        & [(d' & Hg & _) | (c & d' & msg & ec' & out & Hg & Hsw & _)]).
  - exists ec, d, o, d'. split; [exact Hr|].
    rewrite (process_options_end _ _ argv0 _ _ _ _ _ Hr Hg) in *.
    rewrite report_extra_arguments_after_scan in *
      by (eapply argc_after_scan; eassumption).
    destruct (optind d' <? argc d')%nat eqn:El; [discriminate|].
    repeat split. left. split; [exact Hg|now apply Nat.ltb_ge].
  - exists ec, d, o, d'. split; [exact Hr|].
    rewrite (process_options_goto _ _ argv0 _ _ _ _ _ _ _ _ _ Hr Hg Hsw) in *.
    cbn [END returned] in Hs. subst ec'.
    destruct (switch_option_goto_success _ _ _ _ _ _ Hsw) as (-> & -> & ->).
    rewrite (getopt_quiet _ _ _ _ _ Hg) in Hg by discriminate.
    repeat split. right. split; [exact Hg|]. split; [reflexivity|].
    unfold start in *.
    inversion Hr as [s E|s1 s2 s3 Hi Hr' E1 E2]; subst; try discriminate.
    now exists s2.
Qed.

End Outcome.

Lemma complete_scan_succeeds_witness :
  let r := run PERMUTE ["netcalc"; "-p"; "8080"; "-n"; "8"] in
  returned r = E_SUCCESS /\ printed r = []
  /\ options_after r = Some {| n_flag := true; n_value := 8;
                               p_flag := true; p_value := Some "8080" |}.
Proof.
  edestruct (complete_scan_succeeds
               (getopt_init PERMUTE ["netcalc"; "-p"; "8080"; "-n"; "8"])
               options_zero)
    as (H1 & H2 & H3 & H4).
  - discriminate.
  - run_iteration. run_iteration. apply reaches_here.
  - reflexivity.
  - vm_compute. lia.
  - unfold run. rewrite H1, H2, H3. repeat split.
Defined.

Lemma help_returns_current_exit_code_witness :
  let r := run PERMUTE ["netcalc"; "-p"; "8080"; "-h"; "-n"; "1"] in
  returned r = E_SUCCESS /\ printed r = []
  /\ options_after r = Some {| n_flag := false; n_value := 0;
                               p_flag := true; p_value := Some "8080" |}.
Proof.
  edestruct (help_returns_current_exit_code
               (getopt_init PERMUTE
                  ["netcalc"; "-p"; "8080"; "-h"; "-n"; "1"])
               options_zero)
    as (H1 & H2 & H3 & H4).
  - discriminate.
  - run_iteration. apply reaches_here.
  - reflexivity.
  - unfold run. rewrite H1, H2, H3. repeat split.
Defined.

Lemma success_has_two_causes_witness :
  exists ec d o d',
    reaches (E_FAILURE, getopt_init PERMUTE ["netcalc"; "-n"; "4"],
             Some options_zero) (ec, d, o)
    /\ options_after (run PERMUTE ["netcalc"; "-n"; "4"]) = o
    /\ getopt_after (run PERMUTE ["netcalc"; "-n"; "4"]) = Some d'
    /\ ((getopt optstring d = (None, d', []) /\ argc d' <= optind d')
        \/
        (getopt optstring d = (Some "h"%char, d', [])
         /\ ec = E_SUCCESS
         /\ exists s1,
              iteration (E_FAILURE, getopt_init PERMUTE ["netcalc"; "-n"; "4"],
                         Some options_zero) s1
              /\ reaches s1 (ec, d, o))).
Proof.
  apply (success_has_two_causes
           (getopt_init PERMUTE ["netcalc"; "-n"; "4"]) options_zero).
  - discriminate.
  - reflexivity.
Defined.

(** ** Options that [getopt] refuses *)

Lemma optstring_required (c : ascii) :
  optstring_lookup c optstring = Some required_argument ->
  c = "n"%char \/ c = "p"%char.
Proof.
  destruct c as [b0 b1 b2 b3 b4 b5 b6 b7].
  destruct b0, b1, b2, b3, b4, b5, b6, b7; vm_compute; intros H;
    try discriminate; auto.
Qed.

Lemma optstring_known (c : ascii) :
  optstring_lookup c optstring <> None -> c <> ":"%char ->
  c = "n"%char \/ c = "p"%char \/ c = "h"%char.
Proof.
  destruct c as [b0 b1 b2 b3 b4 b5 b6 b7].
  destruct b0, b1, b2, b3, b4, b5, b6, b7; vm_compute; intros H1 H2;
    try (now exfalso; apply H1); try (now exfalso; apply H2); auto.
Qed.

Lemma short_option_error (os : string) (c : ascii) (r : string)
    (d : getopt_data) (d' : getopt_data) (msg : list event) :
  optstring_lookup "?" os = None ->
  short_option os c r d = (Some "?"%char, d', msg) ->
  optopt d' = c /\ argv_done d' = argv_done d
  /\ ((optstring_lookup c os = Some required_argument
       /\ c <> ":"%char
       /\ argv_rest d' = [] /\ nextchar d' = EmptyString
       /\ msg = [fprintf_stderr
                   (program_name d ++ ": option requires an argument -- "
                      ++ quoted c)])
      \/
      ((c = ":"%char \/ c = ";"%char \/ optstring_lookup c os = None)
       /\ msg = [fprintf_stderr
                   (program_name d ++ ": invalid option -- " ++ quoted c)])).
Proof.
  intros Hq. unfold short_option.
  destruct (Ascii.eqb c ":" || Ascii.eqb c ";") eqn:Ec.
  - intros H; inversion H; subst. cbn [optopt argv_done].
    repeat split. right. split; [|reflexivity].
    apply orb_true_iff in Ec. destruct Ec as [E|E];
      apply Ascii.eqb_eq in E; auto.
  - apply orb_false_iff in Ec. destruct Ec as [Ec _].
    apply Ascii.eqb_neq in Ec.
    destruct (optstring_lookup c os) as [[| |]|] eqn:El.
    + intros H; inversion H; subst. congruence.
    + destruct r as [|c1 r1].
      * destruct (argv_rest d) as [|a rest];
          intros H; inversion H; subst; [|congruence].
        cbn [optopt argv_done argv_rest nextchar].
        repeat split. left. now repeat split.
      * intros H; inversion H; subst. congruence.
    + intros H; inversion H; subst. congruence.
    + intros H; inversion H; subst. cbn [optopt argv_done].
      repeat split. right. split; [auto|reflexivity].
Qed.

Lemma getopt_error (d d' : getopt_data) (msg : list event) :
  getopt optstring d = (Some "?"%char, d', msg) ->
  ((optopt d' = "n"%char \/ optopt d' = "p"%char)
   /\ argv_rest d' = [] /\ nextchar d' = EmptyString
   /\ msg = [fprintf_stderr
               (program_name d' ++ ": option requires an argument -- "
                  ++ quoted (optopt d'))])
  \/
  (optopt d' <> "n"%char /\ optopt d' <> "p"%char /\ optopt d' <> "h"%char
   /\ msg = [fprintf_stderr
               (program_name d' ++ ": invalid option -- "
                  ++ quoted (optopt d'))]).
Proof.
  assert (Hs : forall c r e,
             short_option optstring c r e = (Some "?"%char, d', msg) ->
             ((optopt d' = "n"%char \/ optopt d' = "p"%char)
              /\ argv_rest d' = [] /\ nextchar d' = EmptyString
              /\ msg = [fprintf_stderr
                          (program_name d'
                             ++ ": option requires an argument -- "
                             ++ quoted (optopt d'))])
             \/
             (optopt d' <> "n"%char /\ optopt d' <> "p"%char
              /\ optopt d' <> "h"%char
              /\ msg = [fprintf_stderr
                          (program_name d' ++ ": invalid option -- "
                             ++ quoted (optopt d'))])).
  { intros c r e H.
    destruct (short_option_error optstring c r e d' msg eq_refl H)
      as (Ho & Hd & [(Hl & Hc & Hr & Hn & Hm) | (Hc & Hm)]).
    - left. rewrite Ho. unfold program_name. rewrite Hd.
      split; [now apply optstring_required|]. now repeat split.
    - right. rewrite Ho. unfold program_name. rewrite Hd.
      repeat split; try exact Hm;
        intros ->; destruct Hc as [Hc|[Hc|Hc]]; discriminate. }
  unfold getopt.
  destruct (nextchar d) as [|c0 r0]; [|apply Hs].
  destruct (match ordering d with
            | PERMUTE => skip_nonoptions (argv_rest d)
            | REQUIRE_ORDER => ([], argv_rest d)
            end) as [skipped rest].
  destruct rest as [|a rest']; [discriminate|].
  destruct (String.eqb a "--"); [discriminate|].
  destruct a as [|c1 [|c2 r]]; try discriminate.
  destruct (Ascii.eqb c1 "-"); [apply Hs|discriminate].
Qed.

(** When [getopt] returns [?], [process_options] fails, stores nothing and
    prints, after the message of [getopt] itself, one line that tells the two
    causes apart: for [-n] or [-p] as the last element, with no value after
    it, that the option requires an argument; for a character that is not an
    option of the program, that the option is unknown.  In both the line
    names the character. *)
Theorem invalid_option_is_reported (d0 : getopt_data) (o0 : options_t)
    (ec : exit_status) (d : getopt_data) (o : option options_t)
    (d' : getopt_data) (msg : list event) :
  argv_vector d0 <> [] ->
  reaches (E_FAILURE, d0, Some o0) (ec, d, o) ->
  getopt optstring d = (Some "?"%char, d', msg) ->
  let r := process_options (Some d0) (Some o0) in
  returned r = E_FAILURE /\ options_after r = o /\ getopt_after r = Some d'
  /\ (((optopt d' = "n"%char \/ optopt d' = "p"%char)
       /\ argv_rest d' = [] /\ nextchar d' = EmptyString
       /\ printed r =
            [fprintf_stderr
               (program_name d' ++ ": option requires an argument -- "
                  ++ quoted (optopt d'));
             fprintf_stderr
               ("Option '-" ++ String (optopt d') "' requires an argument."
                  ++ LF)]
            ++ print_help_menu)
      \/
      (optopt d' <> "n"%char /\ optopt d' <> "p"%char
       /\ optopt d' <> "h"%char
       /\ printed r =
            [fprintf_stderr
               (program_name d' ++ ": invalid option -- "
                  ++ quoted (optopt d'));
             fprintf_stderr
               ("Unknown option '-" ++ String (optopt d') "'." ++ LF)]
            ++ print_help_menu)).
Proof.
  intros Hv Hr Hg r. subst r.
  assert (Hs : switch_option "?" ec d' o
               = (goto_END, E_FAILURE, o, report_invalid_options d'))
    by reflexivity.
  rewrite (process_options_goto _ _ Hv _ _ _ _ _ _ _ _ _ Hr Hg Hs).
  cbn [END returned options_after getopt_after printed].
  do 3 (split; [reflexivity|]).
  unfold report_invalid_options.
  destruct (getopt_error _ _ _ Hg)
    as [(Ho & Hrest & Hn & ->) | (Hn & Hp & Hh & ->)].
  - left. do 3 (split; [assumption|]).
    destruct Ho as [-> | ->]; reflexivity.
  - right. do 3 (split; [assumption|]).
    apply Ascii.eqb_neq in Hn, Hp. now rewrite Hn, Hp.
Qed.

Lemma invalid_option_is_reported_witness :
  let r := run PERMUTE ["netcalc"; "-n"; "4"; "-x"] in
  returned r = E_FAILURE
  /\ options_after r = Some {| n_flag := true; n_value := 4;
                               p_flag := false; p_value := None |}
  /\ In (fprintf_stderr ("Unknown option '-x'." ++ LF)) (printed r).
Proof.
  edestruct (invalid_option_is_reported
               (getopt_init PERMUTE ["netcalc"; "-n"; "4"; "-x"])
               options_zero)
    as (H1 & H2 & H3 & H4).
  - discriminate.
  - run_iteration. apply reaches_here.
  - reflexivity.
  - unfold run. rewrite H1, H2. split; [reflexivity|].
    split; [reflexivity|]. vm_compute. auto.
Defined.

(** With the option string ["n:p:h"], [getopt] returns nothing but [n], [p],
    [h] and [?]: the [default] case of the [switch] is never taken, and its
    message is never printed. *)
Theorem default_case_is_unreachable (d : getopt_data) (c : ascii)
    (d' : getopt_data) (msg : list event) :
  getopt optstring d = (Some c, d', msg) ->
  (c = "n"%char \/ c = "p"%char \/ c = "h"%char \/ c = "?"%char)
  /\ forall ec o,
       ~ In (fprintf_stderr ("Unknown option encountered." ++ LF))
            (snd (switch_option c ec d' o)).
Proof.
  intros Hg.
  assert (Hc : c = "n"%char \/ c = "p"%char \/ c = "h"%char \/ c = "?"%char).
  { assert (Hs : forall c0 r e,
               short_option optstring c0 r e = (Some c, d', msg) ->
               c = "n"%char \/ c = "p"%char \/ c = "h"%char \/ c = "?"%char).
    { intros c0 r e. unfold short_option.
      destruct (Ascii.eqb c0 ":" || Ascii.eqb c0 ";") eqn:Ec;
        [intros H; inversion H; auto|].
      apply orb_false_iff in Ec. destruct Ec as [Ec _].
      apply Ascii.eqb_neq in Ec.
      assert (Hk : optstring_lookup c0 optstring <> None ->
                   c0 = "n"%char \/ c0 = "p"%char \/ c0 = "h"%char)
        by (intros Hk; now apply optstring_known).
      destruct (optstring_lookup c0 optstring) as [[| |]|];
        try specialize (Hk ltac:(discriminate)).
      - intros H; inversion H; subst. intuition.
      - destruct r as [|c1 r1]; [destruct (argv_rest e)|];
          intros H; inversion H; subst; intuition.
      - intros H; inversion H; subst. intuition.
      - intros H; inversion H; auto. }
    revert Hg. unfold getopt.
    destruct (nextchar d) as [|c0 r0]; [|apply Hs].
    destruct (match ordering d with
              | PERMUTE => skip_nonoptions (argv_rest d)
              | REQUIRE_ORDER => ([], argv_rest d)
              end) as [skipped rest].
    destruct rest as [|a rest']; [discriminate|].
    destruct (String.eqb a "--"); [discriminate|].
    destruct a as [|c1 [|c2 r]]; try discriminate.
    destruct (Ascii.eqb c1 "-"); [apply Hs|discriminate]. }
  split; [exact Hc|]. intros ec o.
  destruct Hc as [-> | [-> | [-> | ->]]]; unfold switch_option;
    cbn [Ascii.eqb Bool.eqb].
  - unfold process_n_option.
    destruct (optarg d') as [arg|], o as [op|];
      try (intros [H|[H|[]]]; discriminate).
    destruct (n_flag op); [intros [H|[H|[]]]; discriminate|].
    destruct (str_to_int32 arg _) as [[|] num];
      [|intros [H|[H|[]]]; discriminate].
    destruct (MIN_NUM_THREADS >? signed_num num)%Z;
      [intros [H|[H|[]]]; discriminate|intros []].
  - unfold process_p_option.
    destruct (optarg d') as [arg|], o as [op|];
      try (intros [H|[H|[]]]; discriminate).
    destruct (p_flag op); [intros [H|[H|[]]]; discriminate|].
    destruct (str_to_int32 arg _) as [[|] num];
      [|intros [H|[H|[]]]; discriminate].
    destruct ((MAX_PORT_VALUE <? signed_num num)%Z
              || (MIN_PORT_VALUE >? signed_num num)%Z);
      [intros [H|[H|[]]]; discriminate|].
    rewrite port_length_check_false. intros [].
  - intros [].
  - unfold report_invalid_options.
    destruct (Ascii.eqb (optopt d') "n" || Ascii.eqb (optopt d') "p");
      intros [H|[]]; discriminate.
Qed.

Lemma default_case_is_unreachable_witness :
  ~ In (fprintf_stderr ("Unknown option encountered." ++ LF))
       (printed (run PERMUTE ["netcalc"; "-x"])).
Proof.
  edestruct (default_case_is_unreachable
               (getopt_init PERMUTE ["netcalc"; "-x"]))
    as (H1 & H2); [reflexivity|].
  intros H. apply (H2 E_FAILURE (Some options_zero)).
  vm_compute in H. vm_compute.
  destruct H as [H|[H|H]]; [discriminate|auto|].
  exfalso. repeat (destruct H as [H|H]; [discriminate|]). exact H.
Defined.

(** ** The loop ends *)

(** The loop of [process_options] ends on every vector: with any fuel above
    the measure of what is left to scan (the fuel [process_options] gives it
    is one), it ends because [getopt] has returned -1 or because the [switch]
    has jumped to [END], in a state it reaches by iterations that each handle
    an option with success; it never ends for want of fuel. *)
Theorem option_loop_terminates (fuel : nat) (ec : exit_status)
    (d : getopt_data) (o : option options_t) :
  scan_measure d < fuel ->
  exists ec1 d1 o1,
    reaches (ec, d, o) (ec1, d1, o1) /\
    ((exists d', getopt optstring d1 = (None, d', []) /\
                 while_getopt fuel ec d o = (fall_through, ec1, d', o1, []))
     \/
     (exists c d' msg ec' out,
         getopt optstring d1 = (Some c, d', msg) /\
         switch_option c ec1 d' o1 = (goto_END, ec', o1, out) /\
         while_getopt fuel ec d o = (goto_END, ec', d', o1, msg ++ out))).
Proof.
  intros Hlt.
  rewrite (while_getopt_fuel fuel (S (scan_measure d))) by lia.
  exact (scan_inv ec d o).
Qed.

Lemma option_loop_terminates_witness :
  exists ec1 d1 o1,
    reaches (E_FAILURE, getopt_init PERMUTE ["netcalc"; "-n"; "4"; "x"],
             Some options_zero) (ec1, d1, o1) /\
    ((exists d', getopt optstring d1 = (None, d', []) /\
                 while_getopt 100 E_FAILURE
                   (getopt_init PERMUTE ["netcalc"; "-n"; "4"; "x"])
                   (Some options_zero)
                 = (fall_through, ec1, d', o1, []))
     \/
     (exists c d' msg ec' out,
         getopt optstring d1 = (Some c, d', msg) /\
         switch_option c ec1 d' o1 = (goto_END, ec', o1, out) /\
         while_getopt 100 E_FAILURE
           (getopt_init PERMUTE ["netcalc"; "-n"; "4"; "x"])
           (Some options_zero)
         = (goto_END, ec', d', o1, msg ++ out))).
Proof.
  apply (option_loop_terminates 100 E_FAILURE
           (getopt_init PERMUTE ["netcalc"; "-n"; "4"; "x"])
           (Some options_zero)).
  vm_compute. lia.
Defined.
